(** * walk_chain.ts: cycle-safe walks along chains of linked nodes

    A shallow embedding of the six traversal functions of [src/walk_chain.ts]
    ([walkChainCallSync], [walkChainCall], [walkChainMerge],
    [walkChainIdCallSync], [walkChainIdCall], [walkChainIdMerge]) and the
    properties their specification states about them. The functions
    embedded are the current ones, lines 1 to 330 of the file, which keep
    the list of visited nodes; what follows them there is an earlier
    version without it, embedded in the module [Earlier] and compared with
    the current one at the end.

    Modelling choices.
    - A node is a JavaScript object, so it has an identity. Objects live in
      a heap [gmap ref obj]; a value of the TypeScript type [Node] is a
      reference [ref] into that heap, and [visitedNodes.includes] compares
      references.
    - [node[linkName]], [node[idName]] and [node[mergeProperty]] are field
      reads. The field names are run-time strings in the source; here each
      is the accessor that reads the field of that name from the object.
    - Values the walker never inspects (accumulators, merge properties,
      [data]; [unknown] in the source) are of an arbitrary type; only the
      test [=== undefined] is made on them, so they are [option]s with
      [None] for [undefined].
    - Callbacks and merge functions are the caller's; they are total
      functions that do not change the nodes. Every call of one of them is
      recorded in a trace, in the order in which the calls happen. *)

From stdpp Require Import base option list gmap strings.

Abbreviation ref := nat (only parsing).

(** ** Shared data *)

(** What a link or identifier field of an identified node may hold: the
    signature says [string]; the source also tests for [undefined], and
    [null] is the other value loosely equal to it. *)
Inductive idval :=
  | IdUndefined
  | IdNull
  | IdString (s : string).

#[global] Instance idval_eq_dec : EqDecision idval.
Proof. solve_decision. Defined.

(** [a == b] on [undefined], [null] and strings. *)
Definition loose_eq (a b : idval) : bool :=
  match a, b with
  | IdString s, IdString t => bool_decide (s = t)
  | IdString _, _ | _, IdString _ => false
  | _, _ => true
  end.

(** [a === undefined] *)
Definition is_undefined (a : idval) : bool :=
  match a with IdUndefined => true | _ => false end.

(** The calls the walker makes to code it does not own. *)
Inductive event (V : Type) :=
  | Callback (node : ref) (lastValue : option V)
  | Compare (nd : ref) (linkId : idval)
  | Merge (nodeOne nodeTwo : option V).
Arguments Callback {V} node lastValue.
Arguments Compare {V} nd linkId.
Arguments Merge {V} nodeOne nodeTwo.

(** The mutable state of one traversal: the array [visitedNodes], shared by
    all recursive calls and only ever pushed to, and the trace. *)
Record state (V : Type) := State {
  visitedNodes : list ref;
  trace : list (event V)
}.
Arguments State {V} visitedNodes trace.
Arguments visitedNodes {V} s.
Arguments trace {V} s.

Definition init {V} : state V := State [] [].

(** [visitedNodes.push(node)] *)
Definition push {V} (node : ref) (s : state V) : state V :=
  State (visitedNodes s ++ [node]) (trace s).

Definition emit {V} (e : event V) (s : state V) : state V :=
  State (visitedNodes s) (trace s ++ [e]).

(** [visitedNodes.includes(nextNode)]: the array holds nodes only, so
    [undefined] is never included; nodes are compared by identity. *)
Definition includes (visited : list ref) (nextNode : option ref) : bool :=
  match nextNode with
  | Some n => bool_decide (n ∈ visited)
  | None => false
  end.

(** How a run of the model ends. [Dangling] is a read through a reference
    to no object, which no JavaScript heap contains; [OutOfFuel] is the
    recursion bound of the model being reached. *)
Inductive outcome (A : Type) :=
  | Returned (a : A)
  | Dangling
  | OutOfFuel.
Arguments Returned {A} a.
Arguments Dangling {A}.
Arguments OutOfFuel {A}.

(** ** Direct links: the link field holds the next node *)

(** [walkChainCallSync], lines 13-47. *)
Module CallSync.
Section CallSync.
Context {obj V D : Type}.
Variable heap : gmap ref obj.
Variable linkName : obj → option ref.
Variable callback : ref → option V → option D → option V.
Variable data : option D.

Fixpoint recursion (fuel : nat) (node : ref) (lastValue : option V)
    (s : state V) : outcome (option V * state V) :=
  match fuel with
  | 0 => OutOfFuel
  | S fuel =>
    let s := push node s in
    let returnValue := callback node lastValue data in
    let s := emit (Callback node lastValue) s in
    match heap !! node with
    | None => Dangling
    | Some o =>
      let nextNode := linkName o in
      if includes (visitedNodes s) nextNode then Returned (returnValue, s)
      else match nextNode with
           | None => Returned (returnValue, s)
           | Some nextNode => recursion fuel nextNode returnValue s
           end
    end
  end.

Definition walkChainCallSync (startNode : ref) : outcome (option V * state V) :=
  recursion (S (size heap)) startNode None init.
End CallSync.
End CallSync.

(** [walkChainMerge], lines 98-142. In
    [mergeFunction(recursion(nextNode, visitedNodes), localProperty)] the
    recursive call is made before the merge function is called. *)
Module Merge.
Section Merge.
Context {obj V : Type}.
Variable heap : gmap ref obj.
Variable linkName : obj → option ref.
Variable mergeProperty : obj → option V.
Variable mergeFunction : option V → option V → option V.

Fixpoint recursion (fuel : nat) (node : ref) (s : state V)
    : outcome (option V * state V) :=
  match fuel with
  | 0 => OutOfFuel
  | S fuel =>
    let s := push node s in
    match heap !! node with
    | None => Dangling
    | Some o =>
      let localProperty := mergeProperty o in
      let nextNode := linkName o in
      if includes (visitedNodes s) nextNode then Returned (localProperty, s)
      else match nextNode with
           | None => Returned (localProperty, s)
           | Some nextNode =>
             match localProperty with
             | None => recursion fuel nextNode s
             | Some _ =>
               match recursion fuel nextNode s with
               | Returned (rest, s) =>
                 Returned (mergeFunction rest localProperty,
                           emit (Merge rest localProperty) s)
               | Dangling => Dangling
               | OutOfFuel => OutOfFuel
               end
             end
           end
    end
  end.

Definition walkChainMerge (startNode : ref) : outcome (option V * state V) :=
  recursion (S (size heap)) startNode init.
End Merge.
End Merge.

(** ** Asynchronous functions

    A promise of the callback settles after some delay with a value. An
    [async] computation is what an [async function] body is: it is done, or
    it is suspended at an [await] of a promise with the rest of the body
    waiting for the promise's value. *)

Record promise (V : Type) := Promise {
  delay : nat;
  settled : option V
}.
Arguments Promise {V} delay settled.
Arguments delay {V} p.
Arguments settled {V} p.

Inductive async (V A : Type) :=
  | Done (a : A)
  | Await (p : promise V) (k : option V → async V A).
Arguments Done {V A} a.
Arguments Await {V A} p k.

(** One callback in flight: the time of its invocation and the time its
    promise settled. *)
Record flight := Flight {
  invoked : nat;
  completed : nat
}.

(** The event loop, for one async computation: an awaited promise was
    created when the [await] was reached and settles [delay] later; only
    then the rest of the body runs. *)
Fixpoint run {V A} (t : async V A) (now : nat) (log : list flight)
    : A * nat * list flight :=
  match t with
  | Done a => (a, now, log)
  | Await p k =>
    run (k (settled p)) (now + delay p) (log ++ [Flight now (now + delay p)])
  end.

(** [walkChainCall], lines 49-83. *)
Module Call.
Section Call.
Context {obj V D : Type}.
Variable heap : gmap ref obj.
Variable linkName : obj → option ref.
Variable callback : ref → option V → option D → promise V.
Variable data : option D.

Fixpoint recursion (fuel : nat) (node : ref) (lastValue : option V)
    (s : state V) : async V (outcome (option V * state V)) :=
  match fuel with
  | 0 => Done OutOfFuel
  | S fuel =>
    let s := push node s in
    let s := emit (Callback node lastValue) s in
    Await (callback node lastValue data) (λ returnValue,
      match heap !! node with
      | None => Done Dangling
      | Some o =>
        let nextNode := linkName o in
        if includes (visitedNodes s) nextNode then Done (Returned (returnValue, s))
        else match nextNode with
             | None => Done (Returned (returnValue, s))
             | Some nextNode => recursion fuel nextNode returnValue s
             end
      end)
  end.

Definition walkChainCall (startNode : ref)
    : async V (outcome (option V * state V)) :=
  recursion (S (size heap)) startNode None init.
End Call.
End Call.

(** ** Identifier links: the link field holds the identifier of the next node *)

(** [nodeList.find(nd => nd[idName] == linkId)]: the predicate is called on
    the elements in order until it holds. *)
Section Find.
Context {obj V : Type}.
Variable heap : gmap ref obj.
Variable idName : obj → idval.

Fixpoint find (linkId : idval) (nodeList : list ref) (s : state V)
    : outcome (option ref * state V) :=
  match nodeList with
  | [] => Returned (None, s)
  | nd :: rest =>
    match heap !! nd with
    | None => Dangling
    | Some o =>
      let s := emit (Compare nd linkId) s in
      if loose_eq (idName o) linkId then Returned (Some nd, s)
      else find linkId rest s
    end
  end.
End Find.

(** [walkChainIdCallSync], lines 157-205. *)
Module IdCallSync.
Section IdCallSync.
Context {obj V D : Type}.
Variable heap : gmap ref obj.
Variable nodeList : list ref.
Variable linkName : obj → idval.
Variable idName : obj → idval.
Variable callback : ref → option V → option D → option V.
Variable data : option D.

Fixpoint recursion (fuel : nat) (node : ref) (lastValue : option V)
    (s : state V) : outcome (option V * state V) :=
  match fuel with
  | 0 => OutOfFuel
  | S fuel =>
    let s := push node s in
    let returnValue := callback node lastValue data in
    let s := emit (Callback node lastValue) s in
    match heap !! node with
    | None => Dangling
    | Some o =>
      let linkId := linkName o in
      if is_undefined linkId then Returned (returnValue, s)
      else
        match find heap idName linkId nodeList s with
        | Returned (nextNode, s) =>
          if includes (visitedNodes s) nextNode then Returned (returnValue, s)
          else match nextNode with
               | None => Returned (returnValue, s)
               | Some nextNode => recursion fuel nextNode returnValue s
               end
        | Dangling => Dangling
        | OutOfFuel => OutOfFuel
        end
    end
  end.

Definition walkChainIdCallSync (startNode : ref)
    : outcome (option V * state V) :=
  recursion (S (size heap)) startNode None init.
End IdCallSync.
End IdCallSync.

(** [walkChainIdCall], lines 207-255. *)
Module IdCall.
Section IdCall.
Context {obj V D : Type}.
Variable heap : gmap ref obj.
Variable nodeList : list ref.
Variable linkName : obj → idval.
Variable idName : obj → idval.
Variable callback : ref → option V → option D → promise V.
Variable data : option D.

Fixpoint recursion (fuel : nat) (node : ref) (lastValue : option V)
    (s : state V) : async V (outcome (option V * state V)) :=
  match fuel with
  | 0 => Done OutOfFuel
  | S fuel =>
    let s := push node s in
    let s := emit (Callback node lastValue) s in
    Await (callback node lastValue data) (λ returnValue,
      match heap !! node with
      | None => Done Dangling
      | Some o =>
        let linkId := linkName o in
        if is_undefined linkId then Done (Returned (returnValue, s))
        else
          match find heap idName linkId nodeList s with
          | Returned (nextNode, s) =>
            if includes (visitedNodes s) nextNode
            then Done (Returned (returnValue, s))
            else match nextNode with
                 | None => Done (Returned (returnValue, s))
                 | Some nextNode => recursion fuel nextNode returnValue s
                 end
          | Dangling => Done Dangling
          | OutOfFuel => Done OutOfFuel
          end
      end)
  end.

Definition walkChainIdCall (startNode : ref)
    : async V (outcome (option V * state V)) :=
  recursion (S (size heap)) startNode None init.
End IdCall.
End IdCall.

(** [walkChainIdMerge], lines 273-330. *)
Module IdMerge.
Section IdMerge.
Context {obj V : Type}.
Variable heap : gmap ref obj.
Variable nodeList : list ref.
Variable linkName : obj → idval.
Variable idName : obj → idval.
Variable mergeProperty : obj → option V.
Variable mergeFunction : option V → option V → option V.

Fixpoint recursion (fuel : nat) (node : ref) (s : state V)
    : outcome (option V * state V) :=
  match fuel with
  | 0 => OutOfFuel
  | S fuel =>
    let s := push node s in
    match heap !! node with
    | None => Dangling
    | Some o =>
      let localProperty := mergeProperty o in
      let linkId := linkName o in
      if is_undefined linkId then Returned (localProperty, s)
      else
        match find heap idName linkId nodeList s with
        | Returned (nextNode, s) =>
          if includes (visitedNodes s) nextNode
          then Returned (localProperty, s)
          else match nextNode with
               | None => Returned (localProperty, s)
               | Some nextNode =>
                 match localProperty with
                 | None => recursion fuel nextNode s
                 | Some _ =>
                   match recursion fuel nextNode s with
                   | Returned (rest, s) =>
                     Returned (mergeFunction rest localProperty,
                               emit (Merge rest localProperty) s)
                   | Dangling => Dangling
                   | OutOfFuel => OutOfFuel
                   end
                 end
               end
        | Dangling => Dangling
        | OutOfFuel => OutOfFuel
        end
    end
  end.

Definition walkChainIdMerge (startNode : ref) : outcome (option V * state V) :=
  recursion (S (size heap)) startNode init.
End IdMerge.
End IdMerge.

(** ** The chain a traversal follows

    What the six functions have in common, as functions on lists: [next]
    is the node a node leads to, if any, and [walk] the nodes visited from
    [node] on when [visited] have been visited before. *)

Section Chain.
Variable next : ref → option ref.

Fixpoint walk (fuel : nat) (node : ref) (visited : list ref)
    : option (list ref) :=
  match fuel with
  | 0 => None
  | S fuel =>
    match next node with
    | None => Some [node]
    | Some nx =>
      if bool_decide (nx ∈ visited ++ [node]) then Some [node]
      else (node ::.) <$> walk fuel nx (visited ++ [node])
    end
  end.

Definition reachable : ref → ref → Prop := rtc (λ a b, next a = Some b).

Fixpoint linked (p : list ref) : Prop :=
  match p with
  | a :: q => match q with b :: _ => next a = Some b | [] => True end ∧ linked q
  | [] => True
  end.

(** A repeat or a dead end is found at [n]: the node it leads to, if
    there is one, is among [visited]. *)
Definition stops (visited : list ref) (n : ref) : Prop :=
  ∀ nx, next n = Some nx → nx ∈ visited.

(** [p] is the chain from [start]: it follows the links from [start], no
    node occurs twice, and it ends where a repeat or dead end is found. *)
Record chain (start : ref) (p : list ref) : Prop := Chain {
  chain_head : head p = Some start;
  chain_NoDup : NoDup p;
  chain_linked : linked p;
  chain_stops : ∃ n, last p = Some n ∧ stops p n
}.
End Chain.

(** The node a direct node leads to. *)
Definition next_direct {obj} (heap : gmap ref obj) (linkName : obj → option ref)
    (node : ref) : option ref :=
  heap !! node ≫= linkName.

(** Every link of the heap leads to an object of the heap, as it is in
    every JavaScript heap: a reference is to an object that exists. *)
Definition closed {obj} (heap : gmap ref obj) (linkName : obj → option ref)
    : bool :=
  forallb (λ ro, match linkName ro.2 with
                 | Some r => bool_decide (is_Some (heap !! r))
                 | None => true
                 end) (map_to_list heap).

Section Identified.
Context {obj : Type}.
Variable heap : gmap ref obj.
Variable nodeList : list ref.
Variable linkName : obj → idval.
Variable idName : obj → idval.

(** [nd[idName] == linkId] *)
Definition matches (linkId : idval) (nd : ref) : bool :=
  match heap !! nd with
  | Some o => loose_eq (idName o) linkId
  | None => false
  end.

(** The first element of the list that matches, if any. *)
Fixpoint first_match (linkId : idval) (l : list ref) : option ref :=
  match l with
  | [] => None
  | nd :: rest => if matches linkId nd then Some nd else first_match linkId rest
  end.

(** The comparisons a search makes. *)
Fixpoint compares {V} (linkId : idval) (l : list ref) : list (event V) :=
  match l with
  | [] => []
  | nd :: rest =>
    Compare nd linkId :: if matches linkId nd then [] else compares linkId rest
  end.

(** The node an identified node leads to. *)
Definition next_id (node : ref) : option ref :=
  o ← heap !! node;
  if is_undefined (linkName o) then None else first_match (linkName o) nodeList.

(** The comparisons made at a node to find the node it leads to. *)
Definition search {V} (node : ref) : list (event V) :=
  match heap !! node with
  | Some o =>
    if is_undefined (linkName o) then [] else compares (linkName o) nodeList
  | None => []
  end.

(** Every node of the collection is an object of the heap. *)
Definition listed : bool :=
  forallb (λ nd, bool_decide (is_Some (heap !! nd))) nodeList.
End Identified.

(** What call mode computes along a chain [p]: the accumulator threaded
    through the callbacks, and the calls made. *)
Section Threading.
Context {V D : Type}.
Variable callback : ref → option V → option D → option V.
Variable data : option D.
Variable searching : ref → list (event V).

Fixpoint thread (p : list ref) (lastValue : option V) : option V :=
  match p with
  | [] => lastValue
  | node :: q => thread q (callback node lastValue data)
  end.

Fixpoint calls (p : list ref) (lastValue : option V) : list (event V) :=
  match p with
  | [] => []
  | node :: q =>
    Callback node lastValue :: searching node
      ++ calls q (callback node lastValue data)
  end.
End Threading.

(** What merge mode computes along a chain whose nodes have the local
    property values [ps], nearest first. *)
Section Merging.
Context {V : Type}.
Variable mergeFunction : option V → option V → option V.

Fixpoint merged (ps : list (option V)) : option V :=
  match ps with
  | [] => None
  | localProperty :: rest =>
    match rest with
    | [] => localProperty
    | _ :: _ =>
      match localProperty with
      | None => merged rest
      | Some _ => mergeFunction (merged rest) localProperty
      end
    end
  end.

Variable heap_prop : ref → option V.
Variable searching : ref → list (event V).

Fixpoint merges (p : list ref) : list (event V) :=
  match p with
  | [] => []
  | node :: q =>
    searching node ++ merges q ++
    match q, heap_prop node with
    | _ :: _, Some v => [Merge (merged (heap_prop <$> q)) (Some v)]
    | _, _ => []
    end
  end.
End Merging.

(** The local property value of a node. *)
Definition prop_of {obj V} (heap : gmap ref obj) (mergeProperty : obj → option V)
    (node : ref) : option V :=
  heap !! node ≫= mergeProperty.

(** ** Timing of the asynchronous walk *)

(** Callbacks invoked one after the other from time [now] on, each when the
    one before it has settled. *)
Section Flights.
Context {V D : Type}.
Variable callback : ref → option V → option D → promise V.
Variable data : option D.

(** The synchronous callback that returns what the promise settles with. *)
Definition resolved : ref → option V → option D → option V :=
  λ node lastValue d, settled (callback node lastValue d).

Fixpoint flights (p : list ref) (lastValue : option V) (now : nat)
    : list flight :=
  match p with
  | [] => []
  | node :: q =>
    let pr := callback node lastValue data in
    Flight now (now + delay pr) :: flights q (settled pr) (now + delay pr)
  end.
End Flights.

(** No callback is invoked before the one before it has completed. *)
Fixpoint sequential (log : list flight) : Prop :=
  match log with
  | f :: rest =>
    invoked f ≤ completed f ∧
    match rest with g :: _ => completed f ≤ invoked g | [] => True end ∧
    sequential rest
  | [] => True
  end.

(** ** Example chains *)

(** A direct node with an [id], a [parent] link and a [config] property. *)
Record dnode (P : Type) := DNode {
  d_id : string;
  d_parent : option ref;
  d_config : option P
}.
Arguments DNode {P} d_id d_parent d_config.
Arguments d_id {P} d.
Arguments d_parent {P} d.
Arguments d_config {P} d.

(** An identified node: [parent] holds the [id] of the next node. *)
Record inode (P : Type) := INode {
  i_id : idval;
  i_parent : idval;
  i_config : option P
}.
Arguments INode {P} i_id i_parent i_config.
Arguments i_id {P} i.
Arguments i_parent {P} i.
Arguments i_config {P} i.

(** Plain objects with number fields, such as [{x: 1}]. *)
Abbreviation props := (gmap string Z) (only parsing).

(** [(farther, nearer) => ({...farther, ...nearer})] *)
Definition shallowMerge (farther nearer : option props) : option props :=
  Some (default ∅ nearer ∪ default ∅ farther).

(** [A -> B -> C] with ids ["a"], ["b"], ["c"] and the property values
    [{x:1}], [{y:2}], [{x:3, z:4}]; [A], [B], [C] are the objects 0, 1, 2. *)
Definition abc : gmap ref (dnode props) :=
  {[ 0 := DNode "a" (Some 1) (Some {[ "x" := 1%Z ]});
     1 := DNode "b" (Some 2) (Some {[ "y" := 2%Z ]});
     2 := DNode "c" None (Some {[ "x" := 3%Z; "z" := 4%Z ]}) ]}.

(** The same chain, [B] without the property. *)
Definition abc_skip : gmap ref (dnode props) :=
  {[ 0 := DNode "a" (Some 1) (Some {[ "x" := 1%Z ]});
     1 := DNode "b" (Some 2) None;
     2 := DNode "c" None (Some {[ "x" := 3%Z; "z" := 4%Z ]}) ]}.

(** [(node, acc) => acc === undefined ? node.id : acc + node.id] *)
Definition concat_ids {P} (heap : gmap ref (dnode P)) (node : ref)
    (acc : option string) (_ : option unit) : option string :=
  match heap !! node with
  | Some o => match acc with
              | None => Some (d_id o)
              | Some a => Some (a +:+ d_id o)
              end
  | None => None
  end.

(** [A -> B -> A]: a cycle. *)
Definition cycle : gmap ref (dnode nat) :=
  {[ 0 := DNode "a" (Some 1) (Some 1);
     1 := DNode "b" (Some 0) (Some 2) ]}.

(** [(farther, nearer) => (farther ?? 0) + nearer] on numbers. *)
Definition sum (farther nearer : option nat) : option nat :=
  Some (default 0 farther + default 0 nearer).

(** [A -> B], [B] without the property. *)
Definition ab_absent : gmap ref (dnode nat) :=
  {[ 0 := DNode "a" (Some 1) (Some 7);
     1 := DNode "b" None None ]}.

(** A collection in which the objects 1 and 2 share the identifier ["p"];
    object 0 links to ["p"]. *)
Definition twins : gmap ref (inode nat) :=
  {[ 0 := INode (IdString "s") (IdString "p") (Some 1);
     1 := INode (IdString "p") IdUndefined (Some 2);
     2 := INode (IdString "p") IdUndefined (Some 3) ]}.

(** A collection in which object 1 has no identifier and object 2 has the
    identifier [null]; object 0 has no link, object 3 has the link [null]. *)
Definition anonymous : gmap ref (inode nat) :=
  {[ 0 := INode (IdString "s") IdUndefined (Some 1);
     1 := INode IdUndefined IdUndefined (Some 2);
     2 := INode IdNull IdUndefined (Some 3);
     3 := INode (IdString "t") IdNull (Some 4) ]}.

(** A callback that counts the nodes. *)
Definition count (_ : ref) (acc : option nat) (_ : option unit) : option nat :=
  Some (S (default 0 acc)).

(** An asynchronous callback that appends the node to the accumulator and
    takes longer the nearer the node is to the start. *)
Definition staggered (node : ref) (acc : option (list ref)) (_ : option unit)
    : promise (list ref) :=
  Promise (10 - 3 * node) (Some (default [] acc ++ [node])).


(** ** Reading a trace *)

(** The node a callback was invoked on. *)
Definition invoked_on {V} (e : event V) : option ref :=
  match e with Callback node _ => Some node | _ => None end.

Definition is_merge {V} (e : event V) : bool :=
  match e with Merge _ _ => true | _ => false end.

(** The value for the rest of the chain combined with the local property
    values of the nearer nodes, nearest first. *)
Definition fold_nearer {V} (mergeFunction : option V → option V → option V)
    (rest : option V) (nearer : list (option V)) : option V :=
  foldr (λ localProperty rest,
           match localProperty with
           | None => rest
           | Some _ => mergeFunction rest localProperty
           end) rest nearer.

(** The walk ended after the chain from [startNode] was visited, in no more
    steps than there are nodes to reach. *)
Definition ended {V} (next : ref → option ref) (startNode : ref)
    (s : state V) : Prop :=
  chain next startNode (visitedNodes s) ∧
  ∀ l : list ref, (∀ r, reachable next startNode r → r ∈ l) →
                  length (visitedNodes s) ≤ length l.

(** [v] is what the callback returned at the node where the walk stopped. *)
Definition callback_result {V D} (next : ref → option ref)
    (callback : ref → option V → option D → option V) (data : option D)
    (v : option V) (s : state V) : Prop :=
  ∃ node lastValue,
    last (visitedNodes s) = Some node ∧ stops next (visitedNodes s) node ∧
    Callback node lastValue ∈ trace s ∧ v = callback node lastValue data.

(** [v] is the local property value of the node where the walk stopped,
    combined with the values of the nodes visited before it. *)
Definition merge_result {V} (next : ref → option ref)
    (heap_prop : ref → option V)
    (mergeFunction : option V → option V → option V)
    (v : option V) (s : state V) : Prop :=
  ∃ q node,
    visitedNodes s = q ++ [node] ∧ stops next (visitedNodes s) node ∧
    v = fold_nearer mergeFunction (heap_prop node) (heap_prop <$> q).

(** The merge walk returns the result computed at the node where it
    stopped, which is that node's local property value. *)
Definition returns_stop_result {obj V} (heap : gmap ref obj)
    (linkName : obj → option ref) (mergeProperty : obj → option V)
    (mergeFunction : option V → option V → option V) (startNode : ref)
    : Prop :=
  ∃ v s node,
    Merge.walkChainMerge heap linkName mergeProperty mergeFunction startNode
      = Returned (v, s) ∧
    last (visitedNodes s) = Some node ∧
    v = prop_of heap mergeProperty node.

(** The merge function is never called with the value of a visited node
    whose local property value is [undefined]. *)
Definition never_merges_absent {obj V} (heap : gmap ref obj)
    (linkName : obj → option ref) (mergeProperty : obj → option V)
    (mergeFunction : option V → option V → option V) (startNode : ref)
    : Prop :=
  ∀ v s node nodeOne nodeTwo,
    Merge.walkChainMerge heap linkName mergeProperty mergeFunction startNode
      = Returned (v, s) →
    node ∈ visitedNodes s → prop_of heap mergeProperty node = None →
    Merge nodeOne nodeTwo ∈ trace s →
    nodeOne ≠ prop_of heap mergeProperty node ∧
    nodeTwo ≠ prop_of heap mergeProperty node.

(** ** The earlier version of the functions

    Lines 331 to 497 of the file: the four synchronous functions as they
    were before the list of visited nodes was added. A link is followed
    when the next node is truthy, which an object always is; the callback
    takes no [data]; the merge function is called also for a local property
    value of [undefined]; an identifier link is tested with [== undefined],
    which holds for [null] too. Nothing bounds their recursion, so the fuel
    of the model is an argument. *)

Module Earlier.

(** [walkChainCall], lines 368-383. *)
Module Call.
Section Call.
Context {obj V : Type}.
Variable heap : gmap ref obj.
Variable linkName : obj → option ref.
Variable callback : ref → option V → option V.

Fixpoint recursion (fuel : nat) (node : ref) (lastValue : option V)
    : outcome (option V) :=
  match fuel with
  | 0 => OutOfFuel
  | S fuel =>
    let returnValue := callback node lastValue in
    match heap !! node with
    | None => Dangling
    | Some o =>
      match linkName o with
      | Some nextNode => recursion fuel nextNode returnValue
      | None => Returned returnValue
      end
    end
  end.

Definition walkChainCall (fuel : nat) (startNode : ref) : outcome (option V) :=
  recursion fuel startNode None.
End Call.
End Call.

(** [walkChainMerge], lines 394-412. *)
Module Merge.
Section Merge.
Context {obj V : Type}.
Variable heap : gmap ref obj.
Variable linkName : obj → option ref.
Variable mergeProperty : obj → option V.
Variable mergeFunction : option V → option V → option V.

Fixpoint recursion (fuel : nat) (node : ref) : outcome (option V) :=
  match fuel with
  | 0 => OutOfFuel
  | S fuel =>
    match heap !! node with
    | None => Dangling
    | Some o =>
      let localProperty := mergeProperty o in
      match linkName o with
      | Some nextNode =>
        match recursion fuel nextNode with
        | Returned rest => Returned (mergeFunction rest localProperty)
        | Dangling => Dangling
        | OutOfFuel => OutOfFuel
        end
      | None => Returned localProperty
      end
    end
  end.

Definition walkChainMerge (fuel : nat) (startNode : ref) : outcome (option V) :=
  recursion fuel startNode.
End Merge.
End Merge.

(** [walkChainIdCall], lines 425-453. *)
Module IdCall.
Section IdCall.
Context {obj V : Type}.
Variable heap : gmap ref obj.
Variable nodeList : list ref.
Variable linkName : obj → idval.
Variable idName : obj → idval.
Variable callback : ref → option V → option V.

Fixpoint recursion (fuel : nat) (node : ref) (lastValue : option V)
    : outcome (option V) :=
  match fuel with
  | 0 => OutOfFuel
  | S fuel =>
    let returnValue := callback node lastValue in
    match heap !! node with
    | None => Dangling
    | Some o =>
      if loose_eq (linkName o) IdUndefined then Returned returnValue
      else
        match find (V:=V) heap idName (linkName o) nodeList init with
        | Returned (Some nextNode, _) => recursion fuel nextNode returnValue
        | Returned (None, _) => Returned returnValue
        | Dangling => Dangling
        | OutOfFuel => OutOfFuel
        end
    end
  end.

Definition walkChainIdCall (fuel : nat) (startNode : ref)
    : outcome (option V) :=
  recursion fuel startNode None.
End IdCall.
End IdCall.

(** [walkChainIdMerge], lines 467-497. *)
Module IdMerge.
Section IdMerge.
Context {obj V : Type}.
Variable heap : gmap ref obj.
Variable nodeList : list ref.
Variable linkName : obj → idval.
Variable idName : obj → idval.
Variable mergeProperty : obj → option V.
Variable mergeFunction : option V → option V → option V.

Fixpoint recursion (fuel : nat) (node : ref) : outcome (option V) :=
  match fuel with
  | 0 => OutOfFuel
  | S fuel =>
    match heap !! node with
    | None => Dangling
    | Some o =>
      let localProperty := mergeProperty o in
      if loose_eq (linkName o) IdUndefined then Returned localProperty
      else
        match find (V:=V) heap idName (linkName o) nodeList init with
        | Returned (Some nextNode, _) =>
          match recursion fuel nextNode with
          | Returned rest => Returned (mergeFunction rest localProperty)
          | Dangling => Dangling
          | OutOfFuel => OutOfFuel
          end
        | Returned (None, _) => Returned localProperty
        | Dangling => Dangling
        | OutOfFuel => OutOfFuel
        end
    end
  end.

Definition walkChainIdMerge (fuel : nat) (startNode : ref)
    : outcome (option V) :=
  recursion fuel startNode.
End IdMerge.
End IdMerge.

End Earlier.

(** The node an identified node leads to in the earlier version: a link of
    [null] is no link. *)
Definition next_id_earlier {obj} (heap : gmap ref obj) (nodeList : list ref)
    (linkName idName : obj → idval) (node : ref) : option ref :=
  o ← heap !! node;
  if loose_eq (linkName o) IdUndefined then None
  else first_match heap idName (linkName o) nodeList.

(** The local property values [ps], nearest first, merged without leaving
    any out. *)
Fixpoint merged_all {V} (mergeFunction : option V → option V → option V)
    (ps : list (option V)) : option V :=
  match ps with
  | [] => None
  | localProperty :: rest =>
    match rest with
    | [] => localProperty
    | _ :: _ => mergeFunction (merged_all mergeFunction rest) localProperty
    end
  end.

(** ** More to say about a collection and a trace *)

(** No two different nodes of the collection have loosely equal
    identifiers: the assumption of the source that the value of [idName] is
    unique in [nodeList]. *)
Definition unique_ids {obj} (heap : gmap ref obj) (idName : obj → idval)
    (nodeList : list ref) : bool :=
  forallb (λ x,
    forallb (λ y,
      bool_decide (x = y) ||
      negb match heap !! x, heap !! y with
           | Some ox, Some oy => loose_eq (idName ox) (idName oy)
           | _, _ => false
           end) nodeList) nodeList.

(** The number of calls of the merge function, and of comparisons. *)
Definition merge_calls {V} (tr : list (event V)) : nat :=
  length (List.filter is_merge tr).

Definition is_comparison {V} (e : event V) : bool :=
  match e with Compare _ _ => true | _ => false end.

Definition comparisons {V} (tr : list (event V)) : nat :=
  length (List.filter is_comparison tr).

(** The number of nodes among [p] that have a local property value. *)
Definition with_property {V} (heap_prop : ref → option V) (p : list ref) : nat :=
  length (List.filter (λ node, bool_decide (is_Some (heap_prop node))) p).

(** Two identified nodes that link to each other: [A -> B -> A]. *)
Definition id_cycle : gmap ref (inode nat) :=
  {[ 0 := INode (IdString "a") (IdString "b") (Some 1);
     1 := INode (IdString "b") (IdString "a") (Some 2) ]}.

(** The chain [A -> B -> C] of identified nodes, with the identifiers ["a"],
    ["b"], ["c"] and the same property values as [abc]. *)
Definition abc_id : gmap ref (inode props) :=
  {[ 0 := INode (IdString "a") (IdString "b") (Some {[ "x" := 1%Z ]});
     1 := INode (IdString "b") (IdString "c") (Some {[ "y" := 2%Z ]});
     2 := INode (IdString "c") IdUndefined
            (Some {[ "x" := 3%Z; "z" := 4%Z ]}) ]}.

(** [A -> B -> C] with the values 1 and 2 at [A] and [B] and none at [C]. *)
Definition tail_absent : gmap ref (dnode nat) :=
  {[ 0 := DNode "a" (Some 1) (Some 1);
     1 := DNode "b" (Some 2) (Some 2);
     2 := DNode "c" None None ]}.

(** The same as a chain of identified nodes. *)
Definition tail_absent_id : gmap ref (inode nat) :=
  {[ 0 := INode (IdString "a") (IdString "b") (Some 1);
     1 := INode (IdString "b") (IdString "c") (Some 2);
     2 := INode (IdString "c") IdUndefined None ]}.

(** * Properties *)

(** ** The chain *)

Lemma length_le_size (l : list nat) (U : gset nat) :
  NoDup l → (∀ x, x ∈ l → x ∈ U) → length l ≤ size U.
Proof.
  intros Hnd Hsub.
  rewrite <- (size_list_to_set (C:=gset nat) l Hnd).
  apply subseteq_size. intros x Hx. apply Hsub. set_solver.
Qed.

Section ChainFacts.
Variable next : ref → option ref.

Lemma walk_head fuel node visited p :
  walk next fuel node visited = Some p → ∃ q, p = node :: q.
Proof.
  destruct fuel as [|fuel]; simpl; [done|].
  destruct (next node) as [nx|]; [|intros [= <-]; eauto].
  case_bool_decide; [intros [= <-]; eauto|].
  destruct (walk next fuel nx _); simpl; intros [= <-]; eauto.
Qed.

Lemma walk_spec fuel : ∀ node visited p,
  walk next fuel node visited = Some p →
  NoDup visited → node ∉ visited →
  NoDup (visited ++ p) ∧ linked next p ∧
  ∃ n, last p = Some n ∧ stops next (visited ++ p) n.
Proof.
  induction fuel as [|fuel IH]; intros node visited p; simpl; [done|].
  intros Hw Hnd Hnode.
  assert (Hnd' : NoDup (visited ++ [node])).
  { apply NoDup_app. split_and!; [done| |apply NoDup_singleton].
    intros x Hx ->%list_elem_of_singleton. done. }
  destruct (next node) as [nx|] eqn:Hnext.
  - case_bool_decide as Hin.
    + injection Hw as <-. split_and!; [done|simpl; done|].
      exists node. split; [done|]. intros nx' Hnx'.
      rewrite Hnext in Hnx'. by injection Hnx' as <-.
    + destruct (walk next fuel nx (visited ++ [node])) as [q|] eqn:Hq;
        simpl in Hw; [|done].
      injection Hw as <-.
      destruct (IH _ _ _ Hq Hnd' Hin) as (Hnd2 & Hl & n & Hlast & Hstop).
      rewrite <- app_assoc in Hnd2, Hstop. simpl in Hnd2, Hstop.
      destruct (walk_head _ _ _ _ Hq) as [q' ->].
      split_and!; [done|simpl; split; [done|apply Hl]|].
      exists n. split; [|done]. rewrite last_cons, Hlast. done.
  - injection Hw as <-. split_and!; [done|simpl; done|].
    exists node. split; [done|]. intros nx' Hnx'. congruence.
Qed.

(** Among finitely many nodes the walk ends before the fuel does. *)
Lemma walk_total (U : gset nat) :
  (∀ a b, a ∈ U → next a = Some b → b ∈ U) →
  ∀ fuel node visited,
    NoDup visited → (∀ x, x ∈ visited → x ∈ U) →
    node ∈ U → node ∉ visited →
    size U < fuel + length visited →
    is_Some (walk next fuel node visited).
Proof.
  intros Hclosed fuel.
  induction fuel as [|fuel IH]; intros node visited Hnd Hsub HU Hnode Hsize.
  - assert (length (visited ++ [node]) ≤ size U).
    { apply length_le_size.
      - apply NoDup_app. split_and!; [done| |apply NoDup_singleton].
        intros x Hx ->%list_elem_of_singleton. done.
      - intros x [?| ->%list_elem_of_singleton]%elem_of_app; auto. }
    rewrite length_app in H. simpl in *. lia.
  - simpl. destruct (next node) as [nx|] eqn:Hnext; [|eauto].
    case_bool_decide as Hin; [eauto|].
    destruct (IH nx (visited ++ [node])) as [q Hq].
    + apply NoDup_app. split_and!; [done| |apply NoDup_singleton].
      intros x Hx ->%list_elem_of_singleton. done.
    + intros x [?| ->%list_elem_of_singleton]%elem_of_app; auto.
    + eauto.
    + done.
    + rewrite length_app. simpl. lia.
    + rewrite Hq. simpl. eauto.
Qed.

Lemma walk_chain fuel start p :
  walk next fuel start [] = Some p → chain next start p.
Proof.
  intros Hw.
  destruct (walk_spec _ _ _ _ Hw) as (Hnd & Hl & Hstop);
    [apply NoDup_nil_2|apply not_elem_of_nil|].
  destruct (walk_head _ _ _ _ Hw) as [q ->].
  split; [done|done|done|done].
Qed.

(** The chain has no more nodes than can be reached from its start. *)
Lemma chain_length start p (l : list ref) :
  chain next start p →
  (∀ r, reachable next start r → r ∈ l) →
  length p ≤ length l.
Proof.
  intros [Hh Hnd Hl _] Hall.
  apply submseteq_length, NoDup_submseteq; [done|].
  intros r Hr. apply Hall.
  destruct p as [|a q]; [by apply elem_of_nil in Hr|].
  injection Hh as ->. clear Hnd Hall.
  revert start Hl Hr. induction q as [|b q IH]; intros start Hl Hr.
  - apply list_elem_of_singleton in Hr as ->. apply rtc_refl.
  - apply elem_of_cons in Hr as [->|Hr]; [apply rtc_refl|].
    destruct Hl as [Hn Hl]. eapply rtc_l; [exact Hn|]. by apply IH.
Qed.
End ChainFacts.

Lemma closed_next {obj} (heap : gmap ref obj) linkName a b :
  closed heap linkName = true →
  next_direct heap linkName a = Some b → is_Some (heap !! b).
Proof.
  unfold closed, next_direct. intros Hc Hn.
  destruct (heap !! a) as [o|] eqn:Ha; simpl in Hn; [|done].
  rewrite forallb_forall in Hc.
  apply elem_of_map_to_list, list_elem_of_In in Ha.
  specialize (Hc _ Ha). simpl in Hc. rewrite Hn in Hc.
  by apply bool_decide_eq_true in Hc.
Qed.

Lemma closed_dom {obj} (heap : gmap ref obj) linkName :
  closed heap linkName = true →
  ∀ a b, a ∈ dom heap → next_direct heap linkName a = Some b → b ∈ dom heap.
Proof. intros Hc a b _ Hn. apply elem_of_dom. by eapply closed_next. Qed.

(** ** The direct walks follow the chain *)

Lemma merged_cons {V} (mergeFunction : option V → option V → option V)
    localProperty x rest :
  merged mergeFunction (localProperty :: x :: rest) =
  match localProperty with
  | None => merged mergeFunction (x :: rest)
  | Some _ => mergeFunction (merged mergeFunction (x :: rest)) localProperty
  end.
Proof. reflexivity. Qed.

Lemma merges_cons {V} (mergeFunction : option V → option V → option V)
    heap_prop searching node q :
  merges mergeFunction heap_prop searching (node :: q) =
  searching node ++ merges mergeFunction heap_prop searching q ++
  match q, heap_prop node with
  | _ :: _, Some v => [Merge (merged mergeFunction (heap_prop <$> q)) (Some v)]
  | _, _ => []
  end.
Proof. reflexivity. Qed.

Section DirectFacts.
Context {obj V D : Type}.
Variable heap : gmap ref obj.
Variable linkName : obj → option ref.
Hypothesis Hclosed : closed heap linkName = true.

Lemma CallSync_recursion_walk (callback : ref → option V → option D → option V)
    data fuel : ∀ node lastValue s,
  is_Some (heap !! node) →
  CallSync.recursion heap linkName callback data fuel node lastValue s =
  match walk (next_direct heap linkName) fuel node (visitedNodes s) with
  | None => OutOfFuel
  | Some p =>
    Returned (thread callback data p lastValue,
              State (visitedNodes s ++ p)
                    (trace s ++ calls callback data (λ _, []) p lastValue))
  end.
Proof.
  induction fuel as [|fuel IH]; intros node lastValue s [o Ho]; simpl; [done|].
  unfold next_direct at 1. rewrite Ho. simpl.
  destruct (linkName o) as [nx|] eqn:Hl; simpl; [|done].
  case_bool_decide; [done|].
  rewrite IH; [|eapply closed_next; [done|]; unfold next_direct; by rewrite Ho].
  simpl. destruct (walk _ fuel nx _) as [q|]; simpl; [|done].
  by rewrite <- !app_assoc.
Qed.

Lemma Merge_recursion_walk (mergeProperty : obj → option V) mergeFunction
    fuel : ∀ node s,
  is_Some (heap !! node) →
  Merge.recursion heap linkName mergeProperty mergeFunction fuel node s =
  match walk (next_direct heap linkName) fuel node (visitedNodes s) with
  | None => OutOfFuel
  | Some p =>
    Returned (merged mergeFunction (prop_of heap mergeProperty <$> p),
              State (visitedNodes s ++ p)
                    (trace s ++ merges mergeFunction
                                  (prop_of heap mergeProperty) (λ _, []) p))
  end.
Proof.
  induction fuel as [|fuel IH]; intros node s [o Ho]; simpl; [done|].
  unfold next_direct at 1. rewrite Ho. simpl.
  assert (Hp : prop_of heap mergeProperty node = mergeProperty o).
  { unfold prop_of. by rewrite Ho. }
  destruct (linkName o) as [nx|] eqn:Hl; simpl.
  2: { rewrite Hp, app_nil_r. done. }
  case_bool_decide; simpl.
  { rewrite Hp, app_nil_r. done. }
  assert (Hnx : is_Some (heap !! nx)).
  { eapply closed_next; [done|]. unfold next_direct. by rewrite Ho. }
  rewrite !IH by done. cbn [push emit visitedNodes trace].
  destruct (walk _ fuel nx _) as [q|] eqn:Hq; cbn [fmap option_fmap option_map].
  2: { by destruct (mergeProperty o). }
  destruct (walk_head _ _ _ _ _ Hq) as [q' ->].
  rewrite (merges_cons _ _ _ node), !fmap_cons.
  rewrite (merged_cons _ (prop_of heap mergeProperty node)), Hp.
  destruct (mergeProperty o) as [v|]; unfold emit; cbn [visitedNodes trace].
  - by rewrite <- !app_assoc.
  - by rewrite <- !app_assoc, app_nil_r.
Qed.
End DirectFacts.

(** ** The identifier walks follow the chain *)

Section IdFacts.
Context {obj V D : Type}.
Variable heap : gmap ref obj.
Variable nodeList : list ref.
Variable linkName : obj → idval.
Variable idName : obj → idval.

Lemma find_first_match linkId (l : list ref) (s : state V) :
  forallb (λ nd, bool_decide (is_Some (heap !! nd))) l = true →
  find heap idName linkId l s =
  Returned (first_match heap idName linkId l,
            State (visitedNodes s) (trace s ++ compares heap idName linkId l)).
Proof.
  revert s. induction l as [|nd rest IH]; intros s Hl; simpl.
  - rewrite app_nil_r. by destruct s.
  - simpl in Hl. apply andb_true_iff in Hl as [Hnd Hrest].
    apply bool_decide_eq_true in Hnd as [o Ho].
    unfold matches. rewrite Ho.
    destruct (loose_eq (idName o) linkId); [done|].
    rewrite IH by done. simpl. by rewrite <- app_assoc.
Qed.

Lemma first_match_heap linkId (l : list ref) nd :
  first_match heap idName linkId l = Some nd →
  nd ∈ l ∧ is_Some (heap !! nd) ∧ matches heap idName linkId nd = true.
Proof.
  induction l as [|x rest IH]; simpl; [done|].
  destruct (matches heap idName linkId x) eqn:Hm.
  - intros [= <-]. split_and!; [left|unfold matches in Hm|done].
    destruct (heap !! x); [eauto|done].
  - intros [? ?]%IH. split; [by right|done].
Qed.

Lemma next_id_heap a b :
  next_id heap nodeList linkName idName a = Some b → is_Some (heap !! b).
Proof.
  unfold next_id. destruct (heap !! a) as [o|]; simpl; [|done].
  destruct (is_undefined (linkName o)); [done|].
  intros H%first_match_heap. tauto.
Qed.

Lemma next_id_dom a b :
  a ∈ dom heap → next_id heap nodeList linkName idName a = Some b →
  b ∈ dom heap.
Proof. intros _ Hn. apply elem_of_dom. by eapply next_id_heap. Qed.

Lemma search_eq node o :
  heap !! node = Some o →
  search (V:=V) heap nodeList linkName idName node =
  if is_undefined (linkName o) then []
  else compares heap idName (linkName o) nodeList.
Proof. intros Ho. unfold search. by rewrite Ho. Qed.

Hypothesis Hlisted : listed heap nodeList = true.

Lemma IdCallSync_recursion_walk
    (callback : ref → option V → option D → option V) data fuel :
  ∀ node lastValue s,
  is_Some (heap !! node) →
  IdCallSync.recursion heap nodeList linkName idName callback data
    fuel node lastValue s =
  match walk (next_id heap nodeList linkName idName) fuel node
          (visitedNodes s) with
  | None => OutOfFuel
  | Some p =>
    Returned (thread callback data p lastValue,
              State (visitedNodes s ++ p)
                    (trace s ++ calls callback data
                       (search heap nodeList linkName idName) p lastValue))
  end.
Proof.
  induction fuel as [|fuel IH]; intros node lastValue s [o Ho]; simpl; [done|].
  unfold next_id at 1. rewrite Ho. simpl.
  unfold emit, push; cbn [visitedNodes trace].
  destruct (is_undefined (linkName o)) eqn:Hu.
  { cbn [thread calls]. by rewrite (search_eq _ _ Ho), Hu. }
  rewrite find_first_match by exact Hlisted.
  cbn [visitedNodes trace].
  destruct (first_match heap idName (linkName o) nodeList) as [nx|] eqn:Hf;
    cbn [includes].
  2: { cbn [thread calls].
       by rewrite (search_eq _ _ Ho), Hu, <- !app_assoc, app_nil_r. }
  case_bool_decide.
  { cbn [thread calls].
    by rewrite (search_eq _ _ Ho), Hu, <- !app_assoc, app_nil_r. }
  rewrite IH by (apply first_match_heap in Hf; tauto).
  cbn [visitedNodes trace].
  destruct (walk _ fuel nx _) as [q|]; cbn [fmap option_fmap option_map];
    [|done].
  cbn [thread calls]. rewrite (search_eq _ _ Ho), Hu.
  by rewrite <- !app_assoc.
Qed.

Lemma IdMerge_recursion_walk (mergeProperty : obj → option V) mergeFunction
    fuel : ∀ node s,
  is_Some (heap !! node) →
  IdMerge.recursion heap nodeList linkName idName mergeProperty mergeFunction
    fuel node s =
  match walk (next_id heap nodeList linkName idName) fuel node
          (visitedNodes s) with
  | None => OutOfFuel
  | Some p =>
    Returned (merged mergeFunction (prop_of heap mergeProperty <$> p),
              State (visitedNodes s ++ p)
                    (trace s ++ merges mergeFunction
                       (prop_of heap mergeProperty)
                       (search heap nodeList linkName idName) p))
  end.
Proof.
  induction fuel as [|fuel IH]; intros node s [o Ho]; simpl; [done|].
  unfold next_id at 1. rewrite Ho. simpl.
  assert (Hp : prop_of heap mergeProperty node = mergeProperty o).
  { unfold prop_of. by rewrite Ho. }
  unfold push; cbn [visitedNodes trace].
  destruct (is_undefined (linkName o)) eqn:Hu.
  { rewrite merges_cons, (search_eq _ _ Ho), Hu;
    change (prop_of heap mergeProperty <$> [node])
      with [prop_of heap mergeProperty node];
    cbn [merged merges app]; by rewrite Hp, ?app_nil_r. }
  rewrite find_first_match by exact Hlisted.
  cbn [visitedNodes trace].
  destruct (first_match heap idName (linkName o) nodeList) as [nx|] eqn:Hf;
    cbn [includes].
  2: { rewrite merges_cons, (search_eq _ _ Ho), Hu;
    change (prop_of heap mergeProperty <$> [node])
      with [prop_of heap mergeProperty node];
    cbn [merged merges app]; by rewrite Hp, ?app_nil_r. }
  case_bool_decide.
  { rewrite merges_cons, (search_eq _ _ Ho), Hu;
    change (prop_of heap mergeProperty <$> [node])
      with [prop_of heap mergeProperty node];
    cbn [merged merges app]; by rewrite Hp, ?app_nil_r. }
  rewrite !IH by (apply first_match_heap in Hf; tauto).
  cbn [visitedNodes trace].
  destruct (walk _ fuel nx _) as [q|] eqn:Hq; cbn [fmap option_fmap option_map].
  2: { by destruct (mergeProperty o). }
  destruct (walk_head _ _ _ _ _ Hq) as [q' ->].
  rewrite (merges_cons _ _ _ node), !fmap_cons.
  rewrite (merged_cons _ (prop_of heap mergeProperty node)), Hp.
  rewrite (search_eq _ _ Ho), Hu.
  destruct (mergeProperty o) as [v|]; unfold emit; cbn [visitedNodes trace].
  - by rewrite <- !app_assoc.
  - by rewrite <- !app_assoc, app_nil_r.
Qed.
End IdFacts.

(** ** The asynchronous walks

    Run by the event loop, an asynchronous walk ends as the synchronous walk
    does whose callback returns what the promises settle with. *)

Lemma sequential_flights {V D} (callback : ref → option V → option D → promise V)
    data p : ∀ lastValue now, sequential (flights callback data p lastValue now).
Proof.
  induction p as [|node q IH]; intros lastValue now; simpl; [done|].
  split_and!; [lia| |apply IH].
  destruct q; simpl; [done|lia].
Qed.

Section AsyncFacts.
Context {obj V D : Type}.
Variable heap : gmap ref obj.
Variable callback : ref → option V → option D → promise V.
Variable data : option D.

Lemma Call_run_result linkName fuel : ∀ node lastValue s now log,
  (run (Call.recursion heap linkName callback data fuel node lastValue s)
     now log).1.1 =
  CallSync.recursion heap linkName (resolved callback) data fuel node lastValue s.
Proof.
  induction fuel as [|fuel IH]; intros node lastValue s now log; simpl; [done|].
  destruct (heap !! node) as [o|]; simpl; [|done].
  destruct (linkName o) as [nx|]; simpl; [|done].
  case_bool_decide; simpl; [done|]. apply IH.
Qed.

Lemma IdCall_run_result nodeList linkName idName fuel :
  ∀ node lastValue s now log,
  (run (IdCall.recursion heap nodeList linkName idName callback data
          fuel node lastValue s) now log).1.1 =
  IdCallSync.recursion heap nodeList linkName idName (resolved callback) data
    fuel node lastValue s.
Proof.
  induction fuel as [|fuel IH]; intros node lastValue s now log; simpl; [done|].
  destruct (heap !! node) as [o|]; simpl; [|done].
  destruct (is_undefined (linkName o)); simpl; [done|].
  destruct (find heap idName (linkName o) nodeList _) as [[nextNode s']| |];
    simpl; [|done|done].
  destruct (includes (visitedNodes s') nextNode); simpl; [done|].
  destruct nextNode as [nx|]; simpl; [|done]. apply IH.
Qed.

Lemma Call_run_log linkName :
  closed heap linkName = true →
  ∀ fuel node lastValue s now log p,
  is_Some (heap !! node) →
  walk (next_direct heap linkName) fuel node (visitedNodes s) = Some p →
  (run (Call.recursion heap linkName callback data fuel node lastValue s)
     now log).2 = log ++ flights callback data p lastValue now.
Proof.
  intros Hclosed fuel.
  induction fuel as [|fuel IH]; intros node lastValue s now log p [o Ho];
    simpl; [done|].
  unfold next_direct at 1. rewrite Ho. simpl.
  destruct (linkName o) as [nx|] eqn:Hl; simpl; [|by intros [= <-]].
  case_bool_decide; simpl; [by intros [= <-]|].
  destruct (walk _ fuel nx _) as [q|] eqn:Hq; simpl; [|done].
  intros [= <-]. erewrite IH; [by rewrite <- app_assoc| |exact Hq].
  eapply closed_next; [done|]. unfold next_direct. by rewrite Ho.
Qed.

Lemma IdCall_run_log nodeList linkName idName :
  listed heap nodeList = true →
  ∀ fuel node lastValue s now log p,
  is_Some (heap !! node) →
  walk (next_id heap nodeList linkName idName) fuel node (visitedNodes s)
    = Some p →
  (run (IdCall.recursion heap nodeList linkName idName callback data
          fuel node lastValue s) now log).2
  = log ++ flights callback data p lastValue now.
Proof.
  intros Hlisted fuel.
  induction fuel as [|fuel IH]; intros node lastValue s now log p [o Ho];
    simpl; [done|].
  unfold next_id at 1. rewrite Ho. simpl.
  destruct (is_undefined (linkName o)) eqn:Hu; simpl; [by intros [= <-]|].
  rewrite find_first_match by exact Hlisted.
  unfold emit, push; cbn [visitedNodes trace].
  destruct (first_match heap idName (linkName o) nodeList) as [nx|] eqn:Hf;
    cbn [includes]; [|by intros [= <-]].
  case_bool_decide; simpl; [by intros [= <-]|].
  destruct (walk _ fuel nx _) as [q|] eqn:Hq; simpl; [|done].
  intros [= <-]. erewrite IH; [by rewrite <- app_assoc| |exact Hq].
  apply first_match_heap in Hf. tauto.
Qed.
End AsyncFacts.

(** ** The walks end *)

Section Totality.
Context {obj : Type}.
Variable heap : gmap ref obj.

Lemma walk_direct_total linkName startNode :
  closed heap linkName = true → is_Some (heap !! startNode) →
  ∃ p, walk (next_direct heap linkName) (S (size heap)) startNode [] = Some p
       ∧ chain (next_direct heap linkName) startNode p.
Proof.
  intros Hc Hs.
  destruct (walk_total (next_direct heap linkName) (dom heap)
              (closed_dom heap linkName Hc) (S (size heap)) startNode [])
    as [p Hp].
  - apply NoDup_nil_2.
  - intros x Hx. by apply elem_of_nil in Hx.
  - by apply elem_of_dom.
  - apply not_elem_of_nil.
  - rewrite size_dom. simpl. lia.
  - exists p. split; [done|]. by eapply walk_chain.
Qed.

Lemma walk_id_total nodeList linkName idName startNode :
  is_Some (heap !! startNode) →
  ∃ p, walk (next_id heap nodeList linkName idName) (S (size heap))
         startNode [] = Some p
       ∧ chain (next_id heap nodeList linkName idName) startNode p.
Proof.
  intros Hs.
  destruct (walk_total (next_id heap nodeList linkName idName) (dom heap)
              (next_id_dom heap nodeList linkName idName)
              (S (size heap)) startNode [])
    as [p Hp].
  - apply NoDup_nil_2.
  - intros x Hx. by apply elem_of_nil in Hx.
  - by apply elem_of_dom.
  - apply not_elem_of_nil.
  - rewrite size_dom. simpl. lia.
  - exists p. split; [done|]. by eapply walk_chain.
Qed.
End Totality.

(** ** Reading the trace of a walk *)

Section TraceFacts.
Context {V D : Type}.

Lemma thread_last (callback : ref → option V → option D → option V) data
    searching p : ∀ lastValue, p ≠ [] →
  ∃ node lv, last p = Some node ∧
             Callback node lv ∈ calls callback data searching p lastValue ∧
             thread callback data p lastValue = callback node lv data.
Proof.
  induction p as [|a q IH]; intros lastValue Hp; [done|].
  destruct q as [|b q].
  - exists a, lastValue. simpl. split_and!; [done|left|done].
  - destruct (IH (callback a lastValue data)) as (n & lv & Hl & Hin & Ht);
      [done|].
    exists n, lv. split_and!; [done| |done].
    cbn [calls]. right. apply elem_of_app. by right.
Qed.

Lemma calls_last (callback : ref → option V → option D → option V) data p :
  ∀ lastValue, p ≠ [] →
  ∃ node lv, last p = Some node ∧
             last (calls callback data (λ _, []) p lastValue)
               = Some (Callback node lv) ∧
             thread callback data p lastValue = callback node lv data.
Proof.
  induction p as [|a q IH]; intros lastValue Hp; [done|].
  destruct q as [|b q].
  - exists a, lastValue. by simpl.
  - destruct (IH (callback a lastValue data)) as (n & lv & Hl & Hin & Ht);
      [done|].
    exists n, lv. split_and!; [done| |done].
    cbn [calls app]. rewrite last_cons. cbn [calls app] in Hin.
    by rewrite Hin.
Qed.

Lemma calls_invoked_on (callback : ref → option V → option D → option V)
    data searching p :
  (∀ node, omap invoked_on (searching node) = []) →
  ∀ lastValue,
    omap invoked_on (calls callback data searching p lastValue) = p.
Proof.
  intros Hs. induction p as [|a q IH]; intros lastValue; [done|].
  cbn [calls omap list_omap invoked_on].
  change (a :: omap invoked_on
            (searching a ++ calls callback data searching q
                              (callback a lastValue data)) = a :: q).
  by rewrite omap_app, Hs, IH.
Qed.

Lemma compares_no_merge {obj} (heap : gmap ref obj) idName linkId l e :
  e ∈ compares (V:=V) heap idName linkId l → is_merge e = false.
Proof.
  induction l as [|nd rest IH]; simpl; [by intros ?%elem_of_nil|].
  intros [->|He]%elem_of_cons; [done|].
  destruct (matches heap idName linkId nd); [by apply elem_of_nil in He|auto].
Qed.

Lemma search_no_merge {obj} (heap : gmap ref obj) nodeList linkName idName
    node e :
  e ∈ search (V:=V) heap nodeList linkName idName node → is_merge e = false.
Proof.
  unfold search. destruct (heap !! node) as [o|]; [|by intros ?%elem_of_nil].
  destruct (is_undefined (linkName o)); [by intros ?%elem_of_nil|].
  apply compares_no_merge.
Qed.
End TraceFacts.

Section MergeFacts.
Context {V : Type}.
Variable mergeFunction : option V → option V → option V.

Lemma merged_snoc ps x :
  merged mergeFunction (ps ++ [x]) = fold_nearer mergeFunction x ps.
Proof.
  induction ps as [|a ps IH]; [done|].
  cbn [app fold_nearer foldr]. fold (fold_nearer mergeFunction x ps).
  rewrite <- IH. destruct ps; reflexivity.
Qed.

Lemma merged_absent ps : Forall (λ x, x = None) ps → merged mergeFunction ps = None.
Proof.
  induction 1 as [|a ps -> Hps IH]; [done|].
  destruct ps; [done|]. by rewrite merged_cons.
Qed.

Variable heap_prop : ref → option V.
Variable searching : ref → list (event V).
Hypothesis searching_no_merge :
  ∀ node e, e ∈ searching node → is_merge e = false.

(** Each call of the merge function is made at a node that has a local
    property value and is not the last: the value is the second argument,
    what the nodes after it gave the first. *)
Lemma merges_inv p nodeOne nodeTwo :
  Merge nodeOne nodeTwo ∈ merges mergeFunction heap_prop searching p →
  ∃ q1 node q2,
    p = q1 ++ node :: q2 ∧ q2 ≠ [] ∧
    nodeTwo = heap_prop node ∧ nodeTwo ≠ None ∧
    nodeOne = merged mergeFunction (heap_prop <$> q2).
Proof.
  induction p as [|a q IH]; [by intros ?%elem_of_nil|].
  rewrite merges_cons. intros [Hs|[Hq|Hm]%elem_of_app]%elem_of_app.
  - by apply searching_no_merge in Hs.
  - destruct (IH Hq) as (q1 & n & q2 & -> & ? & ? & ? & ?).
    exists (a :: q1), n, q2. done.
  - destruct q as [|b q]; [by apply elem_of_nil in Hm|].
    destruct (heap_prop a) as [v|] eqn:Ha; [|by apply elem_of_nil in Hm].
    apply list_elem_of_singleton in Hm. injection Hm as -> ->.
    exists [], a, (b :: q). by rewrite Ha.
Qed.

Lemma merges_absent p :
  (∀ node, node ∈ p → heap_prop node = None) →
  ∀ e, e ∈ merges mergeFunction heap_prop searching p → is_merge e = false.
Proof.
  intros Hp [| |nodeOne nodeTwo] He; [done|done|].
  destruct (merges_inv _ _ _ He) as (q1 & n & q2 & -> & _ & -> & Hn & _).
  destruct Hn. apply Hp. apply elem_of_app. right. left.
Qed.
End MergeFacts.

(** ** What each walk returns *)

Lemma chain_ended {V} next startNode (s : state V) :
  chain next startNode (visitedNodes s) → ended next startNode s.
Proof. intros Hc. split; [done|]. intros l Hl. by eapply chain_length. Qed.

Lemma chain_callback_result {V D} next startNode
    (callback : ref → option V → option D → option V) data searching p :
  chain next startNode p →
  callback_result next callback data (thread callback data p None)
    (State p (calls callback data searching p None)).
Proof.
  intros [Hh Hnd Hl (n & Hlast & Hstop)].
  destruct (thread_last callback data searching p None)
    as (n' & lv & Hlast' & Hin & Ht); [by intros ->|].
  rewrite Hlast in Hlast'. injection Hlast' as <-.
  exists n, lv. done.
Qed.

Lemma chain_merge_result {V} next startNode (heap_prop : ref → option V)
    mergeFunction searching p :
  chain next startNode p →
  merge_result next heap_prop mergeFunction
    (merged mergeFunction (heap_prop <$> p))
    (State p (merges mergeFunction heap_prop searching p)).
Proof.
  intros [Hh Hnd Hl (n & Hlast & Hstop)].
  apply last_Some in Hlast as [q ->].
  exists q, n. split_and!; [done|done|].
  by rewrite fmap_app, <- merged_snoc.
Qed.

Section Returns.
Context {obj V D : Type}.
Variable heap : gmap ref obj.
Variable startNode : ref.
Hypothesis Hstart : is_Some (heap !! startNode).

Section Direct.
Variable linkName : obj → option ref.
Hypothesis Hclosed : closed heap linkName = true.

Lemma CallSync_returns (callback : ref → option V → option D → option V)
    data :
  ∃ p, chain (next_direct heap linkName) startNode p ∧
       CallSync.walkChainCallSync heap linkName callback data startNode =
       Returned (thread callback data p None,
                 State p (calls callback data (λ _, []) p None)).
Proof.
  destruct (walk_direct_total heap linkName startNode Hclosed Hstart)
    as (p & Hw & Hc).
  exists p. split; [done|]. unfold CallSync.walkChainCallSync.
  rewrite CallSync_recursion_walk by done. simpl visitedNodes.
  by rewrite Hw.
Qed.

Lemma Merge_returns (mergeProperty : obj → option V) mergeFunction :
  ∃ p, chain (next_direct heap linkName) startNode p ∧
       Merge.walkChainMerge heap linkName mergeProperty mergeFunction
         startNode =
       Returned (merged mergeFunction (prop_of heap mergeProperty <$> p),
                 State p (merges mergeFunction (prop_of heap mergeProperty)
                            (λ _, []) p)).
Proof.
  destruct (walk_direct_total heap linkName startNode Hclosed Hstart)
    as (p & Hw & Hc).
  exists p. split; [done|]. unfold Merge.walkChainMerge.
  rewrite Merge_recursion_walk by done. simpl visitedNodes.
  by rewrite Hw.
Qed.

Lemma Call_returns (callback : ref → option V → option D → promise V)
    data now :
  ∃ p, chain (next_direct heap linkName) startNode p ∧
       (run (Call.walkChainCall heap linkName callback data startNode)
          now []).1.1 =
       Returned (thread (resolved callback) data p None,
                 State p (calls (resolved callback) data (λ _, []) p None))
       ∧
       (run (Call.walkChainCall heap linkName callback data startNode)
          now []).2 = flights callback data p None now.
Proof.
  destruct (walk_direct_total heap linkName startNode Hclosed Hstart)
    as (p & Hw & Hc).
  exists p. split; [done|]. unfold Call.walkChainCall. split.
  - rewrite Call_run_result, CallSync_recursion_walk by done.
    simpl visitedNodes. by rewrite Hw.
  - by rewrite (Call_run_log heap callback data linkName Hclosed _ _ _ _ _ _ p).
Qed.
End Direct.

Section Identifier.
Variable nodeList : list ref.
Variable linkName : obj → idval.
Variable idName : obj → idval.
Hypothesis Hlisted : listed heap nodeList = true.

Lemma IdCallSync_returns (callback : ref → option V → option D → option V)
    data :
  ∃ p, chain (next_id heap nodeList linkName idName) startNode p ∧
       IdCallSync.walkChainIdCallSync heap nodeList linkName idName
         callback data startNode =
       Returned (thread callback data p None,
                 State p (calls callback data
                            (search heap nodeList linkName idName) p None)).
Proof.
  destruct (walk_id_total heap nodeList linkName idName startNode Hstart)
    as (p & Hw & Hc).
  exists p. split; [done|]. unfold IdCallSync.walkChainIdCallSync.
  rewrite IdCallSync_recursion_walk by done. simpl visitedNodes.
  by rewrite Hw.
Qed.

Lemma IdMerge_returns (mergeProperty : obj → option V) mergeFunction :
  ∃ p, chain (next_id heap nodeList linkName idName) startNode p ∧
       IdMerge.walkChainIdMerge heap nodeList linkName idName
         mergeProperty mergeFunction startNode =
       Returned (merged mergeFunction (prop_of heap mergeProperty <$> p),
                 State p (merges mergeFunction (prop_of heap mergeProperty)
                            (search heap nodeList linkName idName) p)).
Proof.
  destruct (walk_id_total heap nodeList linkName idName startNode Hstart)
    as (p & Hw & Hc).
  exists p. split; [done|]. unfold IdMerge.walkChainIdMerge.
  rewrite IdMerge_recursion_walk by done. simpl visitedNodes.
  by rewrite Hw.
Qed.

Lemma IdCall_returns (callback : ref → option V → option D → promise V)
    data now :
  ∃ p, chain (next_id heap nodeList linkName idName) startNode p ∧
       (run (IdCall.walkChainIdCall heap nodeList linkName idName
               callback data startNode) now []).1.1 =
       Returned (thread (resolved callback) data p None,
                 State p (calls (resolved callback) data
                            (search heap nodeList linkName idName) p None))
       ∧
       (run (IdCall.walkChainIdCall heap nodeList linkName idName
               callback data startNode) now []).2
       = flights callback data p None now.
Proof.
  destruct (walk_id_total heap nodeList linkName idName startNode Hstart)
    as (p & Hw & Hc).
  exists p. split; [done|]. unfold IdCall.walkChainIdCall. split.
  - rewrite IdCall_run_result, IdCallSync_recursion_walk by done.
    simpl visitedNodes. by rewrite Hw.
  - by rewrite (IdCall_run_log heap callback data nodeList linkName idName
                  Hlisted _ _ _ _ _ _ p).
Qed.
End Identifier.
End Returns.

(** ** Where the merge function is called *)

Section MergeCalls.
Context {V : Type}.
Variable mergeFunction : option V → option V → option V.
Variable heap_prop : ref → option V.
Variable searching : ref → list (event V).

(** At a node with a value that is not the last, the call is made. *)
Lemma merges_elem q1 node q2 a :
  q2 ≠ [] → heap_prop node = Some a →
  Merge (merged mergeFunction (heap_prop <$> q2)) (Some a)
  ∈ merges mergeFunction heap_prop searching (q1 ++ node :: q2).
Proof.
  intros Hq2 Ha. induction q1 as [|x q1 IH].
  - simpl app. rewrite merges_cons, Ha. rewrite !elem_of_app. right. right.
    destruct q2; [done|]. left.
  - change ((x :: q1) ++ node :: q2) with (x :: (q1 ++ node :: q2)).
    rewrite merges_cons. rewrite !elem_of_app. right. by left.
Qed.

Lemma merged_app ps rest :
  rest ≠ [] →
  merged mergeFunction (ps ++ rest)
  = fold_nearer mergeFunction (merged mergeFunction rest) ps.
Proof.
  intros Hrest. induction ps as [|a ps IH]; [done|].
  cbn [app fold_nearer foldr].
  fold (fold_nearer mergeFunction (merged mergeFunction rest) ps).
  rewrite <- IH. destruct (ps ++ rest) as [|b r] eqn:Hpr; [|reflexivity].
  by apply app_eq_nil in Hpr as [_ ->].
Qed.

(** The value at a node that has a value while no node after it has one. *)
Lemma merged_nothing_farther node q2 a :
  q2 ≠ [] → heap_prop node = Some a →
  (∀ n, n ∈ q2 → heap_prop n = None) →
  merged mergeFunction (heap_prop <$> q2) = None ∧
  merged mergeFunction (heap_prop <$> node :: q2)
  = mergeFunction None (Some a).
Proof.
  intros Hq2 Ha Hnone.
  assert (Hm : merged mergeFunction (heap_prop <$> q2) = None).
  { apply merged_absent, Forall_fmap, Forall_forall. intros n Hn.
    by apply Hnone. }
  split; [done|]. destruct q2 as [|b q2]; [done|].
  rewrite !fmap_cons, merged_cons, Ha. rewrite <- fmap_cons. by rewrite Hm.
Qed.
End MergeCalls.

(** * The claims *)

(** C1, as stated, fails for the merge walks: on the cycle [A -> B -> A]
    with the property values 1 and 2 and addition as the merge function,
    [walkChainMerge] returns 3, the two values merged, and not 2, the result
    computed at [B], the node where the repeat was detected. *)
Lemma merge_returns_more_than_stop_result :
  ¬ returns_stop_result cycle d_parent d_config sum 0.
Proof.
  intros (v & s & node & Hr & Hl & Hv).
  vm_compute in Hr. injection Hr as <- <-.
  simpl in Hl. injection Hl as <-.
  vm_compute in Hv. discriminate.
Qed.

(** C1, amended: on every chain, also one with a cycle, each of the six
    traversals returns. The nodes it visited are the chain from the start
    node: they follow the links, none is visited twice, and the last one is
    the node where a dead end or a repeat (a link to a node visited before,
    the start node and the node itself included) was detected. There are no
    more steps than nodes that can be reached from the start node, so at
    most N+1. The four call walks return what the callback returned at the
    last node; the two merge walks return the last node's local property
    value combined with the values of the nodes visited before it. *)
Theorem walks_end {obj iobj V D : Type}
    (heap : gmap ref obj) (linkName : obj → option ref)
    (nodes : gmap ref iobj) (nodeList : list ref) (linkId idName : iobj → idval)
    (callback : ref → option V → option D → option V)
    (callbackAsync : ref → option V → option D → promise V)
    (data : option D)
    (mergeProperty : obj → option V) (imergeProperty : iobj → option V)
    (mergeFunction : option V → option V → option V)
    (startNode istartNode : ref) (now : nat) :
  closed heap linkName = true → is_Some (heap !! startNode) →
  listed nodes nodeList = true → is_Some (nodes !! istartNode) →
  let next := next_direct heap linkName in
  let inext := next_id nodes nodeList linkId idName in
  (∃ v s,
     CallSync.walkChainCallSync heap linkName callback data startNode
       = Returned (v, s) ∧
     ended next startNode s ∧ callback_result next callback data v s) ∧
  (∃ v s,
     (run (Call.walkChainCall heap linkName callbackAsync data startNode)
        now []).1.1 = Returned (v, s) ∧
     ended next startNode s ∧
     callback_result next (resolved callbackAsync) data v s) ∧
  (∃ v s,
     Merge.walkChainMerge heap linkName mergeProperty mergeFunction startNode
       = Returned (v, s) ∧
     ended next startNode s ∧
     merge_result next (prop_of heap mergeProperty) mergeFunction v s) ∧
  (∃ v s,
     IdCallSync.walkChainIdCallSync nodes nodeList linkId idName callback data
       istartNode = Returned (v, s) ∧
     ended inext istartNode s ∧ callback_result inext callback data v s) ∧
  (∃ v s,
     (run (IdCall.walkChainIdCall nodes nodeList linkId idName callbackAsync
             data istartNode) now []).1.1 = Returned (v, s) ∧
     ended inext istartNode s ∧
     callback_result inext (resolved callbackAsync) data v s) ∧
  (∃ v s,
     IdMerge.walkChainIdMerge nodes nodeList linkId idName imergeProperty
       mergeFunction istartNode = Returned (v, s) ∧
     ended inext istartNode s ∧
     merge_result inext (prop_of nodes imergeProperty) mergeFunction v s).
Proof.
  intros Hclosed Hstart Hlisted Histart next inext.
  split_and!.
  - destruct (CallSync_returns heap startNode Hstart linkName Hclosed
                callback data) as (p & Hc & Hr).
    eexists _, _. split; [exact Hr|]. split; [by apply chain_ended|].
    by eapply chain_callback_result.
  - destruct (Call_returns heap startNode Hstart linkName Hclosed
                callbackAsync data now) as (p & Hc & Hr & _).
    eexists _, _. split; [exact Hr|]. split; [by apply chain_ended|].
    by eapply chain_callback_result.
  - destruct (Merge_returns heap startNode Hstart linkName Hclosed
                mergeProperty mergeFunction) as (p & Hc & Hr).
    eexists _, _. split; [exact Hr|]. split; [by apply chain_ended|].
    by eapply chain_merge_result.
  - destruct (IdCallSync_returns nodes istartNode Histart nodeList linkId
                idName Hlisted callback data) as (p & Hc & Hr).
    eexists _, _. split; [exact Hr|]. split; [by apply chain_ended|].
    by eapply chain_callback_result.
  - destruct (IdCall_returns nodes istartNode Histart nodeList linkId
                idName Hlisted callbackAsync data now) as (p & Hc & Hr & _).
    eexists _, _. split; [exact Hr|]. split; [by apply chain_ended|].
    by eapply chain_callback_result.
  - destruct (IdMerge_returns nodes istartNode Histart nodeList linkId
                idName Hlisted imergeProperty mergeFunction) as (p & Hc & Hr).
    eexists _, _. split; [exact Hr|]. split; [by apply chain_ended|].
    by eapply chain_merge_result.
Qed.

Lemma walks_end_witness :
  closed cycle d_parent = true ∧ is_Some (cycle !! 0) ∧
  listed twins [1; 2] = true ∧ is_Some (twins !! 0) ∧
  ∃ v s,
    Merge.walkChainMerge cycle d_parent d_config sum 0 = Returned (v, s) ∧
    ended (next_direct cycle d_parent) 0 s ∧
    merge_result (next_direct cycle d_parent) (prop_of cycle d_config) sum v s.
Proof.
  assert (H1 : closed cycle d_parent = true) by (vm_compute; reflexivity).
  assert (H2 : is_Some (cycle !! 0)) by (vm_compute; eauto).
  assert (H3 : listed twins [1; 2] = true) by (vm_compute; reflexivity).
  assert (H4 : is_Some (twins !! 0)) by (vm_compute; eauto).
  split_and!; [exact H1|exact H2|exact H3|exact H4|].
  exact (proj1 (proj2 (proj2
    (walks_end cycle d_parent twins [1; 2] i_parent i_id count
       (λ node acc d, Promise node (count node acc d)) None
       d_config i_config sum 0 0 0 H1 H2 H3 H4)))).
Defined.

Lemma calls_length {V D} (callback : ref → option V → option D → option V)
    data p : ∀ lastValue,
  length (calls callback data (λ _, []) p lastValue) = length p.
Proof. induction p as [|a q IH]; intros lastValue; simpl; [done|]. by rewrite IH. Qed.

(** C2: the synchronous call walk invokes the callback once for each node
    it visits, in the order from the start node to the end of the chain;
    the first invocation gets [undefined] as the previous accumulator, each
    later one what the invocation before it returned; the walk returns what
    the callback returned for the last node visited. For [A -> B -> C] with
    the ids ["a"], ["b"], ["c"] and the callback that appends the id, the
    result is ["abc"]. *)
Theorem callSync_threads_accumulator {obj V D : Type}
    (heap : gmap ref obj) (linkName : obj → option ref)
    (callback : ref → option V → option D → option V) (data : option D)
    (startNode : ref) :
  closed heap linkName = true → is_Some (heap !! startNode) →
  (∃ v s,
     CallSync.walkChainCallSync heap linkName callback data startNode
       = Returned (v, s) ∧
     chain (next_direct heap linkName) startNode (visitedNodes s) ∧
     omap invoked_on (trace s) = visitedNodes s ∧
     length (trace s) = length (visitedNodes s) ∧
     trace s = calls callback data (λ _, []) (visitedNodes s) None ∧
     head (trace s) = Some (Callback startNode None) ∧
     ∃ node lastValue,
       last (visitedNodes s) = Some node ∧
       last (trace s) = Some (Callback node lastValue) ∧
       v = callback node lastValue data) ∧
  CallSync.walkChainCallSync abc d_parent (concat_ids abc) None 0 =
  Returned (Some "abc",
            State [0; 1; 2]
              [Callback 0 None; Callback 1 (Some "a"); Callback 2 (Some "ab")]).
Proof.
  intros Hclosed Hstart. split; [|by vm_compute].
  destruct (CallSync_returns heap startNode Hstart linkName Hclosed
              callback data) as (p & Hc & Hr).
  eexists _, _. split; [exact Hr|]. cbn [visitedNodes trace].
  split_and!; [done| | |done| |].
  - by apply calls_invoked_on.
  - apply calls_length.
  - destruct Hc as [Hh _ _ _]. destruct p as [|a q]; [done|].
    injection Hh as ->. done.
  - destruct Hc as [Hh _ _ _].
    destruct (calls_last callback data p None) as (n & lv & ? & ? & ?);
      [by intros ->|].
    by exists n, lv.
Qed.

Lemma callSync_threads_accumulator_witness :
  closed abc d_parent = true ∧ is_Some (abc !! 0) ∧
  CallSync.walkChainCallSync abc d_parent (concat_ids abc) None 0 =
  Returned (Some "abc",
            State [0; 1; 2]
              [Callback 0 None; Callback 1 (Some "a"); Callback 2 (Some "ab")]).
Proof.
  assert (H1 : closed abc d_parent = true) by (vm_compute; reflexivity).
  assert (H2 : is_Some (abc !! 0)) by (vm_compute; eauto).
  split_and!; [exact H1|exact H2|].
  exact (proj2 (callSync_threads_accumulator abc d_parent (concat_ids abc)
                  None 0 H1 H2)).
Defined.

(** C3: in merge mode the nodes visited are the chain from the start node,
    and the calls of the merge function are these: one at each visited node
    that has a local property value and is not the last one visited, with
    the combined result of the nodes after it in the chain as the first
    argument and the node's own value as the second, the farthest node
    first. The result is the values of the chain merged in this way. For
    [A -> B -> C] with the values [{x:1}], [{y:2}], [{x:3, z:4}] and the
    shallow override merge the result is [{x:1, y:2, z:4}], with direct
    links and with identifier links. *)
Theorem merge_passes_farther_then_nearer {obj iobj V : Type}
    (heap : gmap ref obj) (linkName : obj → option ref)
    (nodes : gmap ref iobj) (nodeList : list ref) (linkId idName : iobj → idval)
    (mergeProperty : obj → option V) (imergeProperty : iobj → option V)
    (mergeFunction : option V → option V → option V)
    (startNode istartNode : ref) :
  closed heap linkName = true → is_Some (heap !! startNode) →
  listed nodes nodeList = true → is_Some (nodes !! istartNode) →
  (∃ v s,
     Merge.walkChainMerge heap linkName mergeProperty mergeFunction startNode
       = Returned (v, s) ∧
     chain (next_direct heap linkName) startNode (visitedNodes s) ∧
     trace s = merges mergeFunction (prop_of heap mergeProperty) (λ _, [])
                 (visitedNodes s) ∧
     v = merged mergeFunction (prop_of heap mergeProperty <$> visitedNodes s) ∧
     (∀ nodeOne nodeTwo, Merge nodeOne nodeTwo ∈ trace s →
        ∃ q1 node q2,
          visitedNodes s = q1 ++ node :: q2 ∧ q2 ≠ [] ∧
          nodeTwo = prop_of heap mergeProperty node ∧ nodeTwo ≠ None ∧
          nodeOne = merged mergeFunction (prop_of heap mergeProperty <$> q2)) ∧
     (∀ q1 node q2 a,
        visitedNodes s = q1 ++ node :: q2 → q2 ≠ [] →
        prop_of heap mergeProperty node = Some a →
        Merge (merged mergeFunction (prop_of heap mergeProperty <$> q2)) (Some a)
        ∈ trace s)) ∧
  (∃ v s,
     IdMerge.walkChainIdMerge nodes nodeList linkId idName imergeProperty
       mergeFunction istartNode = Returned (v, s) ∧
     chain (next_id nodes nodeList linkId idName) istartNode (visitedNodes s) ∧
     trace s = merges mergeFunction (prop_of nodes imergeProperty)
                 (search nodes nodeList linkId idName) (visitedNodes s) ∧
     v = merged mergeFunction (prop_of nodes imergeProperty <$> visitedNodes s) ∧
     (∀ nodeOne nodeTwo, Merge nodeOne nodeTwo ∈ trace s →
        ∃ q1 node q2,
          visitedNodes s = q1 ++ node :: q2 ∧ q2 ≠ [] ∧
          nodeTwo = prop_of nodes imergeProperty node ∧ nodeTwo ≠ None ∧
          nodeOne = merged mergeFunction (prop_of nodes imergeProperty <$> q2)) ∧
     (∀ q1 node q2 a,
        visitedNodes s = q1 ++ node :: q2 → q2 ≠ [] →
        prop_of nodes imergeProperty node = Some a →
        Merge (merged mergeFunction (prop_of nodes imergeProperty <$> q2))
              (Some a)
        ∈ trace s)) ∧
  Merge.walkChainMerge abc d_parent d_config shallowMerge 0 =
  Returned (Some {[ "x" := 1%Z; "y" := 2%Z; "z" := 4%Z ]},
            State [0; 1; 2]
              [Merge (Some {[ "x" := 3%Z; "z" := 4%Z ]}) (Some {[ "y" := 2%Z ]});
               Merge (Some {[ "x" := 3%Z; "y" := 2%Z; "z" := 4%Z ]})
                     (Some {[ "x" := 1%Z ]})]) ∧
  IdMerge.walkChainIdMerge abc_id [2; 1; 0] i_parent i_id i_config shallowMerge 0
  = Returned (Some {[ "x" := 1%Z; "y" := 2%Z; "z" := 4%Z ]},
              State [0; 1; 2]
                [Compare 2 (IdString "b"); Compare 1 (IdString "b");
                 Compare 2 (IdString "c");
                 Merge (Some {[ "x" := 3%Z; "z" := 4%Z ]})
                       (Some {[ "y" := 2%Z ]});
                 Merge (Some {[ "x" := 3%Z; "y" := 2%Z; "z" := 4%Z ]})
                       (Some {[ "x" := 1%Z ]})]).
Proof.
  intros Hclosed Hstart Hlisted Histart.
  split_and!; [| |by vm_compute|by vm_compute].
  - destruct (Merge_returns heap startNode Hstart linkName Hclosed
                mergeProperty mergeFunction) as (p & Hc & Hr).
    eexists _, _. split; [exact Hr|]. cbn [visitedNodes trace].
    split_and!; [done|done|done| |].
    + intros nodeOne nodeTwo Hin.
      eapply merges_inv; [|exact Hin]. by intros node e ?%elem_of_nil.
    + intros q1 node q2 a -> Hq2 Ha. by apply merges_elem.
  - destruct (IdMerge_returns nodes istartNode Histart nodeList linkId idName
                Hlisted imergeProperty mergeFunction) as (p & Hc & Hr).
    eexists _, _. split; [exact Hr|]. cbn [visitedNodes trace].
    split_and!; [done|done|done| |].
    + intros nodeOne nodeTwo Hin.
      eapply merges_inv; [|exact Hin]. intros node e. apply search_no_merge.
    + intros q1 node q2 a -> Hq2 Ha. by apply merges_elem.
Qed.

Lemma merge_passes_farther_then_nearer_witness :
  closed abc d_parent = true ∧ is_Some (abc !! 0) ∧
  listed abc_id [2; 1; 0] = true ∧ is_Some (abc_id !! 0) ∧
  ∃ v s,
    IdMerge.walkChainIdMerge abc_id [2; 1; 0] i_parent i_id i_config
      shallowMerge 0 = Returned (v, s) ∧
    chain (next_id abc_id [2; 1; 0] i_parent i_id) 0 (visitedNodes s) ∧
    trace s = merges shallowMerge (prop_of abc_id i_config)
                (search abc_id [2; 1; 0] i_parent i_id) (visitedNodes s) ∧
    v = merged shallowMerge (prop_of abc_id i_config <$> visitedNodes s) ∧
    (∀ nodeOne nodeTwo, Merge nodeOne nodeTwo ∈ trace s →
       ∃ q1 node q2,
         visitedNodes s = q1 ++ node :: q2 ∧ q2 ≠ [] ∧
         nodeTwo = prop_of abc_id i_config node ∧ nodeTwo ≠ None ∧
         nodeOne = merged shallowMerge (prop_of abc_id i_config <$> q2)) ∧
    (∀ q1 node q2 a,
       visitedNodes s = q1 ++ node :: q2 → q2 ≠ [] →
       prop_of abc_id i_config node = Some a →
       Merge (merged shallowMerge (prop_of abc_id i_config <$> q2)) (Some a)
       ∈ trace s).
Proof.
  assert (H1 : closed abc d_parent = true) by (vm_compute; reflexivity).
  assert (H2 : is_Some (abc !! 0)) by (vm_compute; eauto).
  assert (H3 : listed abc_id [2; 1; 0] = true) by (vm_compute; reflexivity).
  assert (H4 : is_Some (abc_id !! 0)) by (vm_compute; eauto).
  split_and!; [exact H1|exact H2|exact H3|exact H4|].
  exact (proj1 (proj2 (merge_passes_farther_then_nearer abc d_parent abc_id
    [2; 1; 0] i_parent i_id d_config i_config shallowMerge 0 0 H1 H2 H3 H4))).
Defined.

(** C4, as stated, fails at the node where the walk stops: on [A -> B]
    with [A]'s value 7 and [B]'s value [undefined], [B]'s value is returned
    as the result of the rest of the chain and the merge function is called
    with it as its first argument. *)
Lemma absent_stop_value_is_merged :
  ¬ never_merges_absent ab_absent d_parent d_config sum 0.
Proof.
  intros H.
  destruct (H (Some 7) (State [0; 1] [Merge None (Some 7)]) 1 None (Some 7))
    as [Hone _].
  - by vm_compute.
  - right. left.
  - by vm_compute.
  - left.
  - apply Hone. by vm_compute.
Qed.

(** C4, amended: in merge mode no call of the merge function is made at a
    node whose local property value is [undefined]: the second (nearer)
    argument of every call is the value, not [undefined], of a visited node.
    When the walk goes on from such a node, the result of the rest of the
    chain is passed through unchanged. For [A -> B -> C] with [B]'s value
    [undefined] the result is the merge of [C]'s and [A]'s values, and when
    the value of every visited node is [undefined] the result is [undefined]
    and the merge function is not called. *)
Theorem absent_property_is_skipped {obj iobj V : Type}
    (heap : gmap ref obj) (linkName : obj → option ref)
    (nodes : gmap ref iobj) (nodeList : list ref) (linkId idName : iobj → idval)
    (mergeProperty : obj → option V) (imergeProperty : iobj → option V)
    (mergeFunction : option V → option V → option V)
    (startNode istartNode : ref) :
  closed heap linkName = true → is_Some (heap !! startNode) →
  listed nodes nodeList = true → is_Some (nodes !! istartNode) →
  (∃ v s,
     Merge.walkChainMerge heap linkName mergeProperty mergeFunction startNode
       = Returned (v, s) ∧
     (∀ nodeOne nodeTwo, Merge nodeOne nodeTwo ∈ trace s →
        nodeTwo ≠ None ∧
        ∃ node, node ∈ visitedNodes s ∧
                nodeTwo = prop_of heap mergeProperty node) ∧
     ((∀ node, node ∈ visitedNodes s → prop_of heap mergeProperty node = None) →
      v = None ∧ trace s = [])) ∧
  (∃ v s,
     IdMerge.walkChainIdMerge nodes nodeList linkId idName imergeProperty
       mergeFunction istartNode = Returned (v, s) ∧
     (∀ nodeOne nodeTwo, Merge nodeOne nodeTwo ∈ trace s →
        nodeTwo ≠ None ∧
        ∃ node, node ∈ visitedNodes s ∧
                nodeTwo = prop_of nodes imergeProperty node) ∧
     ((∀ node, node ∈ visitedNodes s → prop_of nodes imergeProperty node = None) →
      v = None ∧ ∀ e, e ∈ trace s → is_merge e = false)) ∧
  (∀ fuel node o nextNode s,
     heap !! node = Some o → mergeProperty o = None →
     linkName o = Some nextNode → nextNode ∉ visitedNodes s ++ [node] →
     Merge.recursion heap linkName mergeProperty mergeFunction (S fuel) node s
     = Merge.recursion heap linkName mergeProperty mergeFunction fuel nextNode
         (push node s)) ∧
  (∀ fuel node o nextNode s,
     nodes !! node = Some o → imergeProperty o = None →
     linkId o ≠ IdUndefined →
     first_match nodes idName (linkId o) nodeList = Some nextNode →
     nextNode ∉ visitedNodes s ++ [node] →
     IdMerge.recursion nodes nodeList linkId idName imergeProperty mergeFunction
       (S fuel) node s
     = IdMerge.recursion nodes nodeList linkId idName imergeProperty
         mergeFunction fuel nextNode
         (State (visitedNodes s ++ [node])
                (trace s ++ compares nodes idName (linkId o) nodeList))) ∧
  Merge.walkChainMerge abc_skip d_parent d_config shallowMerge 0 =
  Returned (shallowMerge (Some {[ "x" := 3%Z; "z" := 4%Z ]})
                         (Some {[ "x" := 1%Z ]}),
            State [0; 1; 2]
              [Merge (Some {[ "x" := 3%Z; "z" := 4%Z ]}) (Some {[ "x" := 1%Z ]})]).
Proof.
  intros Hclosed Hstart Hlisted Histart. split_and!; [| | | |by vm_compute].
  - destruct (Merge_returns heap startNode Hstart linkName Hclosed
                mergeProperty mergeFunction) as (p & Hc & Hr).
    eexists _, _. split; [exact Hr|]. cbn [visitedNodes trace]. split.
    + intros nodeOne nodeTwo Hin.
      destruct (merges_inv mergeFunction (prop_of heap mergeProperty)
                  (λ _, []) (λ node e (H : e ∈ []), False_ind _ (not_elem_of_nil e H))
                  _ _ _ Hin)
        as (q1 & n & q2 & -> & _ & -> & Hn & _).
      split; [done|]. exists n. split; [|done]. apply elem_of_app. right. left.
    + intros Hnone. split.
      * apply merged_absent, Forall_fmap, Forall_forall. intros n Hn. by apply Hnone.
      * clear Hc Hr. induction p as [|a q IH]; [done|].
        rewrite merges_cons, IH by (intros n Hn; apply Hnone; by right).
        rewrite (Hnone a) by left. by destruct q.
  - destruct (IdMerge_returns nodes istartNode Histart nodeList linkId idName
                Hlisted imergeProperty mergeFunction) as (p & Hc & Hr).
    eexists _, _. split; [exact Hr|]. cbn [visitedNodes trace]. split.
    + intros nodeOne nodeTwo Hin.
      destruct (merges_inv mergeFunction (prop_of nodes imergeProperty)
                  (search nodes nodeList linkId idName)
                  (search_no_merge nodes nodeList linkId idName)
                  _ _ _ Hin)
        as (q1 & n & q2 & -> & _ & -> & Hn & _).
      split; [done|]. exists n. split; [|done]. apply elem_of_app. right. left.
    + intros Hnone. split.
      * apply merged_absent, Forall_fmap, Forall_forall. intros n Hn. by apply Hnone.
      * eapply merges_absent; [apply search_no_merge|done].
  - intros fuel node o nextNode s Ho Hp Hl Hin. simpl.
    rewrite Ho, Hl, Hp. cbn [includes]. by rewrite bool_decide_eq_false_2.
  - intros fuel node o nextNode s Ho Hp Hl Hf Hin. simpl.
    rewrite Ho, Hp.
    destruct (is_undefined (linkId o)) eqn:Hu; [by destruct (linkId o)|].
    rewrite find_first_match by exact Hlisted. rewrite Hf.
    cbn [includes visitedNodes push].
    by rewrite bool_decide_eq_false_2.
Qed.

Lemma absent_property_is_skipped_witness :
  closed abc_skip d_parent = true ∧ is_Some (abc_skip !! 0) ∧
  listed twins [1; 2] = true ∧ is_Some (twins !! 0) ∧
  Merge.walkChainMerge abc_skip d_parent d_config shallowMerge 0 =
  Returned (shallowMerge (Some {[ "x" := 3%Z; "z" := 4%Z ]})
                         (Some {[ "x" := 1%Z ]}),
            State [0; 1; 2]
              [Merge (Some {[ "x" := 3%Z; "z" := 4%Z ]}) (Some {[ "x" := 1%Z ]})]).
Proof.
  assert (H1 : closed abc_skip d_parent = true) by (vm_compute; reflexivity).
  assert (H2 : is_Some (abc_skip !! 0)) by (vm_compute; eauto).
  assert (H3 : listed twins [1; 2] = true) by (vm_compute; reflexivity).
  assert (H4 : is_Some (twins !! 0)) by (vm_compute; eauto).
  split_and!; [exact H1|exact H2|exact H3|exact H4|].
  exact (proj2 (proj2 (proj2 (proj2 (absent_property_is_skipped abc_skip
    d_parent twins [1; 2] i_parent i_id d_config (λ _, None) shallowMerge
    0 0 H1 H2 H3 H4))))).
Defined.

(** C5: in merge mode, at a node where the chain ends (its link is
    [undefined], or the node the link leads to cannot be found, or that node
    is one already visited, the node itself included) the result is the
    node's own local property value, present or [undefined], and the merge
    function is not called: the trace stays as it was, but for the
    comparisons of the search in identifier mode. *)
Theorem merge_stops_with_local_property {obj iobj V : Type}
    (heap : gmap ref obj) (linkName : obj → option ref)
    (nodes : gmap ref iobj) (nodeList : list ref) (linkId idName : iobj → idval)
    (mergeProperty : obj → option V) (imergeProperty : iobj → option V)
    (mergeFunction : option V → option V → option V) :
  listed nodes nodeList = true →
  (∀ fuel node o s,
     heap !! node = Some o →
     (∀ nextNode, linkName o = Some nextNode →
                  nextNode ∈ visitedNodes s ++ [node]) →
     Merge.recursion heap linkName mergeProperty mergeFunction (S fuel) node s
     = Returned (mergeProperty o, State (visitedNodes s ++ [node]) (trace s))) ∧
  (∀ fuel node o s,
     nodes !! node = Some o → linkId o = IdUndefined →
     IdMerge.recursion nodes nodeList linkId idName imergeProperty mergeFunction
       (S fuel) node s
     = Returned (imergeProperty o,
                 State (visitedNodes s ++ [node]) (trace s))) ∧
  (∀ fuel node o s,
     nodes !! node = Some o → linkId o ≠ IdUndefined →
     (∀ nextNode,
        first_match nodes idName (linkId o) nodeList = Some nextNode →
        nextNode ∈ visitedNodes s ++ [node]) →
     IdMerge.recursion nodes nodeList linkId idName imergeProperty mergeFunction
       (S fuel) node s
     = Returned (imergeProperty o,
                 State (visitedNodes s ++ [node])
                       (trace s ++ compares nodes idName (linkId o) nodeList))
     ∧ ∀ e, e ∈ compares (V:=V) nodes idName (linkId o) nodeList →
            is_merge e = false).
Proof.
  intros Hlisted. split_and!.
  - intros fuel node o s Ho Hstop. simpl. rewrite Ho.
    destruct (linkName o) as [nx|]; cbn [includes]; [|done].
    by rewrite bool_decide_eq_true_2 by auto.
  - intros fuel node o s Ho Hl. simpl. by rewrite Ho, Hl.
  - intros fuel node o s Ho Hl Hstop. split; [|apply compares_no_merge].
    simpl. rewrite Ho.
    destruct (is_undefined (linkId o)) eqn:Hu; [by destruct (linkId o)|].
    rewrite find_first_match by exact Hlisted.
    cbn [visitedNodes trace push].
    destruct (first_match nodes idName (linkId o) nodeList) as [nx|];
      cbn [includes]; [|done].
    by rewrite bool_decide_eq_true_2 by auto.
Qed.

Lemma merge_stops_with_local_property_witness :
  listed twins [1; 2] = true ∧
  Merge.recursion cycle d_parent d_config sum 1 1 (State [0] [])
  = Returned (Some 2, State [0; 1] []).
Proof.
  assert (H1 : listed twins [1; 2] = true) by (vm_compute; reflexivity).
  split; [exact H1|].
  refine (proj1 (merge_stops_with_local_property cycle d_parent twins [1; 2]
            i_parent i_id d_config i_config sum H1) 0 1
            (DNode "b" (Some 0) (Some 2)) (State [0] []) _ _).
  - by vm_compute.
  - intros nextNode [= <-]. left.
Defined.

(** C6: in identifier mode a node whose link field is [undefined] ends the
    walk before any search: the three identifier walks return at that node
    and no element of the collection is compared, so that a collection node
    without an identifier, which the search for [undefined] would match, is
    not taken for the next node. *)
Theorem absent_link_stops_before_search {iobj V D : Type}
    (nodes : gmap ref iobj) (nodeList : list ref) (linkId idName : iobj → idval)
    (callback : ref → option V → option D → option V)
    (callbackAsync : ref → option V → option D → promise V)
    (data : option D) (imergeProperty : iobj → option V)
    (mergeFunction : option V → option V → option V)
    (fuel : nat) (node : ref) (o : iobj) (lastValue : option V) (s : state V)
    (now : nat) (log : list flight) :
  nodes !! node = Some o → linkId o = IdUndefined →
  IdCallSync.recursion nodes nodeList linkId idName callback data
    (S fuel) node lastValue s
  = Returned (callback node lastValue data,
              State (visitedNodes s ++ [node])
                    (trace s ++ [Callback node lastValue])) ∧
  run (IdCall.recursion nodes nodeList linkId idName callbackAsync data
         (S fuel) node lastValue s) now log
  = (Returned (settled (callbackAsync node lastValue data),
               State (visitedNodes s ++ [node])
                     (trace s ++ [Callback node lastValue])),
     now + delay (callbackAsync node lastValue data),
     log ++ [Flight now (now + delay (callbackAsync node lastValue data))]) ∧
  IdMerge.recursion nodes nodeList linkId idName imergeProperty mergeFunction
    (S fuel) node s
  = Returned (imergeProperty o, State (visitedNodes s ++ [node]) (trace s)) ∧
  (first_match anonymous i_id IdUndefined [1; 2; 3] = Some 1 ∧
   IdCallSync.walkChainIdCallSync anonymous [1; 2; 3] i_parent i_id count None 0
   = Returned (Some 1, State [0] [Callback 0 None])).
Proof.
  intros Ho Hl. split_and!.
  - simpl. by rewrite Ho, Hl.
  - simpl. by rewrite Ho, Hl.
  - simpl. by rewrite Ho, Hl.
  - by vm_compute.
  - by vm_compute.
Qed.

Lemma absent_link_stops_before_search_witness :
  anonymous !! 0 = Some (INode (IdString "s") IdUndefined (Some 1)) ∧
  IdCallSync.recursion anonymous [1; 2; 3] i_parent i_id count None 1 0 None init
  = Returned (Some 1, State [0] [Callback 0 None]).
Proof.
  assert (H1 : anonymous !! 0 = Some (INode (IdString "s") IdUndefined (Some 1)))
    by (vm_compute; reflexivity).
  split; [exact H1|].
  exact (proj1 (absent_link_stops_before_search anonymous [1; 2; 3] i_parent
                  i_id count (λ n a d, Promise 0 (count n a d)) None i_config
                  sum 0 0 _ None init 0 [] H1 eq_refl)).
Defined.

(** ** The search for the next node *)

Section FirstMatch.
Context {iobj : Type}.
Variable nodes : gmap ref iobj.
Variable idName : iobj → idval.


Lemma first_match_None linkId (l : list ref) :
  first_match nodes idName linkId l = None ↔
  ∀ x, x ∈ l → matches nodes idName linkId x = false.
Proof.
  induction l as [|x rest IH]; simpl.
  - split; [by intros _ y ?%elem_of_nil|done].
  - destruct (matches nodes idName linkId x) eqn:Hx.
    + split; [done|]. intros H. specialize (H x). rewrite Hx in H.
      discriminate H. left.
    + rewrite IH. split.
      * intros H y [->|?]%elem_of_cons; auto.
      * intros H y Hy. apply H. by right.
Qed.



Context {V D : Type}.
Variable nodeList : list ref.
Variable linkId : iobj → idval.
Hypothesis Hlisted : listed nodes nodeList = true.


Lemma IdMerge_step (imergeProperty : iobj → option V) mergeFunction
    fuel node o s :
  nodes !! node = Some o → linkId o ≠ IdUndefined →
  IdMerge.recursion nodes nodeList linkId idName imergeProperty mergeFunction
    (S fuel) node s =
  let localProperty := imergeProperty o in
  let s1 := State (visitedNodes s ++ [node])
              (trace s ++ compares nodes idName (linkId o) nodeList) in
  match first_match nodes idName (linkId o) nodeList with
  | Some nextNode =>
    if bool_decide (nextNode ∈ visitedNodes s ++ [node])
    then Returned (localProperty, s1)
    else
      match localProperty with
      | None =>
        IdMerge.recursion nodes nodeList linkId idName imergeProperty
          mergeFunction fuel nextNode s1
      | Some _ =>
        match IdMerge.recursion nodes nodeList linkId idName imergeProperty
                mergeFunction fuel nextNode s1 with
        | Returned (rest, s2) =>
          Returned (mergeFunction rest localProperty,
                    emit (Merge rest localProperty) s2)
        | Dangling => Dangling
        | OutOfFuel => OutOfFuel
        end
      end
  | None => Returned (localProperty, s1)
  end.
Proof.
  intros Ho Hl. simpl. rewrite Ho.
  destruct (is_undefined (linkId o)) eqn:Hu; [by destruct (linkId o)|].
  rewrite find_first_match by exact Hlisted.
  cbn [visitedNodes trace push emit].
  by destruct (first_match nodes idName (linkId o) nodeList).
Qed.
End FirstMatch.





(** ** Delays do not matter *)

Lemma CallSync_recursion_ext {obj V D} (heap : gmap ref obj) linkName
    (callback callback' : ref → option V → option D → option V) data :
  (∀ node lastValue d, callback' node lastValue d = callback node lastValue d) →
  ∀ fuel node lastValue s,
    CallSync.recursion heap linkName callback' data fuel node lastValue s
    = CallSync.recursion heap linkName callback data fuel node lastValue s.
Proof.
  intros Hext fuel. induction fuel as [|fuel IH]; intros node lastValue s;
    simpl; [done|].
  rewrite Hext. destruct (heap !! node) as [o|]; [|done].
  destruct (includes _ _); [done|]. destruct (linkName o); [apply IH|done].
Qed.

Lemma flights_length {V D} (callback : ref → option V → option D → promise V)
    data p : ∀ lastValue now,
  length (flights callback data p lastValue now) = length p.
Proof.
  induction p as [|a q IH]; intros lastValue now; simpl; [done|].
  by rewrite IH.
Qed.

(** C8: the asynchronous call walk awaits the promise of each callback
    before it looks for the next node. So a callback is invoked when the one
    before it has completed and never earlier, one for each visited node,
    and the walk ends as the synchronous walk does whose callback returns
    what the promises settle with: with the same accumulator, the same nodes
    visited and the same calls, whatever the delays of the promises are. On
    [A -> B -> C] with delays 10, 7 and 4 the callbacks run from 0 to 10,
    from 10 to 17 and from 17 to 21, and the accumulator is [A, B, C]. *)
Theorem async_walk_is_sequential {obj V D : Type}
    (heap : gmap ref obj) (linkName : obj → option ref)
    (callback : ref → option V → option D → promise V) (data : option D)
    (startNode : ref) (now : nat) :
  closed heap linkName = true → is_Some (heap !! startNode) →
  let r := run (Call.walkChainCall heap linkName callback data startNode)
             now [] in
  r.1.1 = CallSync.walkChainCallSync heap linkName (resolved callback) data
            startNode ∧
  (∃ v s,
     r.1.1 = Returned (v, s) ∧
     r.2 = flights callback data (visitedNodes s) None now ∧
     length r.2 = length (visitedNodes s)) ∧
  sequential r.2 ∧
  (∀ callback' : ref → option V → option D → promise V,
     (∀ node lastValue d,
        settled (callback' node lastValue d)
        = settled (callback node lastValue d)) →
     (run (Call.walkChainCall heap linkName callback' data startNode)
        now []).1.1 = r.1.1) ∧
  run (Call.walkChainCall abc d_parent staggered None 0) 0 [] =
  (Returned (Some [0; 1; 2],
             State [0; 1; 2]
               [Callback 0 None; Callback 1 (Some [0]);
                Callback 2 (Some [0; 1])]),
   21, [Flight 0 10; Flight 10 17; Flight 17 21]).
Proof.
  intros Hclosed Hstart r.
  destruct (Call_returns heap startNode Hstart linkName Hclosed callback data
              now) as (p & Hc & Hr & Hlog).
  fold r in Hr, Hlog. split_and!.
  - apply Call_run_result.
  - eexists _, _. split; [exact Hr|]. cbn [visitedNodes].
    split; [done|]. rewrite Hlog. apply flights_length.
  - rewrite Hlog. apply sequential_flights.
  - intros callback' Hext. unfold r, Call.walkChainCall.
    rewrite !Call_run_result. by apply CallSync_recursion_ext.
  - by vm_compute.
Qed.

Lemma async_walk_is_sequential_witness :
  closed abc d_parent = true ∧ is_Some (abc !! 0) ∧
  sequential (run (Call.walkChainCall abc d_parent staggered None 0) 0 []).2.
Proof.
  assert (H1 : closed abc d_parent = true) by (vm_compute; reflexivity).
  assert (H2 : is_Some (abc !! 0)) by (vm_compute; eauto).
  split_and!; [exact H1|exact H2|].
  exact (proj1 (proj2 (proj2 (async_walk_is_sequential abc d_parent staggered
                                None 0 0 H1 H2)))).
Defined.

(** ** A node from which the walk goes on *)

Lemma chain_goes_on next startNode b p :
  chain next startNode p → next startNode = Some b → b ≠ startNode →
  ∃ q, p = startNode :: b :: q ∧ startNode ∉ b :: q.
Proof.
  intros [Hh Hnd Hl (n & Hlast & Hstop)] Hn Hb.
  destruct p as [|a q]; [done|]. injection Hh as ->.
  destruct q as [|c q].
  - injection Hlast as <-. apply Hstop in Hn.
    by apply list_elem_of_singleton in Hn.
  - destruct Hl as [Hc _]. rewrite Hn in Hc. injection Hc as <-.
    exists q. split; [done|]. by apply NoDup_cons in Hnd as [? _].
Qed.

(** C9: in merge mode, at any visited node that has a local property value
    and is not the last of the chain, the merge function is called also
    when every node after it has the value [undefined]: the result of the
    rest of the chain is then [undefined], and it is the first argument.
    The value at that node is [mergeFunction(undefined, its value)], which
    the nodes before it merge on. For [A -> B] with a value at [A] and none
    at [B], where the chain ends, the result is
    [mergeFunction(undefined, A's value)], from the one call made. *)
Theorem merge_is_called_with_undefined_farther {obj iobj V : Type}
    (heap : gmap ref obj) (linkName : obj → option ref)
    (nodes : gmap ref iobj) (nodeList : list ref) (linkId idName : iobj → idval)
    (mergeProperty : obj → option V) (imergeProperty : iobj → option V)
    (mergeFunction : option V → option V → option V)
    (startNode istartNode : ref) :
  closed heap linkName = true → is_Some (heap !! startNode) →
  listed nodes nodeList = true → is_Some (nodes !! istartNode) →
  (∃ v s,
     Merge.walkChainMerge heap linkName mergeProperty mergeFunction startNode
       = Returned (v, s) ∧
     chain (next_direct heap linkName) startNode (visitedNodes s) ∧
     ∀ q1 node q2 a,
       visitedNodes s = q1 ++ node :: q2 → q2 ≠ [] →
       prop_of heap mergeProperty node = Some a →
       (∀ n, n ∈ q2 → prop_of heap mergeProperty n = None) →
       Merge None (Some a) ∈ trace s ∧
       v = fold_nearer mergeFunction (mergeFunction None (Some a))
             (prop_of heap mergeProperty <$> q1)) ∧
  (∃ v s,
     IdMerge.walkChainIdMerge nodes nodeList linkId idName imergeProperty
       mergeFunction istartNode = Returned (v, s) ∧
     chain (next_id nodes nodeList linkId idName) istartNode (visitedNodes s) ∧
     ∀ q1 node q2 a,
       visitedNodes s = q1 ++ node :: q2 → q2 ≠ [] →
       prop_of nodes imergeProperty node = Some a →
       (∀ n, n ∈ q2 → prop_of nodes imergeProperty n = None) →
       Merge None (Some a) ∈ trace s ∧
       v = fold_nearer mergeFunction (mergeFunction None (Some a))
             (prop_of nodes imergeProperty <$> q1)) ∧
  (∀ fuel node o a nextNode s s',
     heap !! node = Some o → mergeProperty o = Some a →
     linkName o = Some nextNode → nextNode ∉ visitedNodes s ++ [node] →
     Merge.recursion heap linkName mergeProperty mergeFunction fuel nextNode
       (push node s) = Returned (None, s') →
     Merge.recursion heap linkName mergeProperty mergeFunction (S fuel) node s
     = Returned (mergeFunction None (Some a), emit (Merge None (Some a)) s')) ∧
  (∀ fuel node o a nextNode s s',
     nodes !! node = Some o → imergeProperty o = Some a →
     linkId o ≠ IdUndefined →
     first_match nodes idName (linkId o) nodeList = Some nextNode →
     nextNode ∉ visitedNodes s ++ [node] →
     IdMerge.recursion nodes nodeList linkId idName imergeProperty mergeFunction
       fuel nextNode
       (State (visitedNodes s ++ [node])
              (trace s ++ compares nodes idName (linkId o) nodeList))
     = Returned (None, s') →
     IdMerge.recursion nodes nodeList linkId idName imergeProperty mergeFunction
       (S fuel) node s
     = Returned (mergeFunction None (Some a), emit (Merge None (Some a)) s')) ∧
  (∀ o a b ob,
     heap !! startNode = Some o → mergeProperty o = Some a →
     linkName o = Some b → b ≠ startNode →
     heap !! b = Some ob → mergeProperty ob = None →
     (∀ c, linkName ob = Some c → c = startNode ∨ c = b) →
     Merge.walkChainMerge heap linkName mergeProperty mergeFunction startNode
     = Returned (mergeFunction None (Some a),
                 State [startNode; b] [Merge None (Some a)])) ∧
  Merge.walkChainMerge ab_absent d_parent d_config sum 0
  = Returned (sum None (Some 7), State [0; 1] [Merge None (Some 7)]) ∧
  Merge.walkChainMerge tail_absent d_parent d_config sum 0
  = Returned (sum (sum None (Some 2)) (Some 1),
              State [0; 1; 2]
                [Merge None (Some 2); Merge (sum None (Some 2)) (Some 1)]) ∧
  IdMerge.walkChainIdMerge tail_absent_id [0; 1; 2] i_parent i_id i_config sum 0
  = Returned (sum (sum None (Some 2)) (Some 1),
              State [0; 1; 2]
                [Compare 0 (IdString "b"); Compare 1 (IdString "b");
                 Compare 0 (IdString "c"); Compare 1 (IdString "c");
                 Compare 2 (IdString "c");
                 Merge None (Some 2); Merge (sum None (Some 2)) (Some 1)]).
Proof.
  intros Hclosed Hstart Hlisted Histart.
  split_and!; [| | | | |by vm_compute|by vm_compute|by vm_compute].
  - destruct (Merge_returns heap startNode Hstart linkName Hclosed
                mergeProperty mergeFunction) as (p & Hc & Hr).
    eexists _, _. split; [exact Hr|]. cbn [visitedNodes trace].
    split; [done|]. intros q1 node q2 a -> Hq2 Ha Hnone.
    destruct (merged_nothing_farther mergeFunction
                (prop_of heap mergeProperty) node q2 a Hq2 Ha Hnone)
      as [Hm Hv].
    split.
    + rewrite <- Hm. by apply merges_elem.
    + rewrite fmap_app, merged_app by done. by rewrite Hv.
  - destruct (IdMerge_returns nodes istartNode Histart nodeList linkId idName
                Hlisted imergeProperty mergeFunction) as (p & Hc & Hr).
    eexists _, _. split; [exact Hr|]. cbn [visitedNodes trace].
    split; [done|]. intros q1 node q2 a -> Hq2 Ha Hnone.
    destruct (merged_nothing_farther mergeFunction
                (prop_of nodes imergeProperty) node q2 a Hq2 Ha Hnone)
      as [Hm Hv].
    split.
    + rewrite <- Hm. by apply merges_elem.
    + rewrite fmap_app, merged_app by done. by rewrite Hv.
  - intros fuel node o a nextNode s s' Ho Ha Hl Hin Hrest. simpl.
    rewrite Ho, Hl, Ha. cbn [includes].
    rewrite bool_decide_eq_false_2 by done.
    fold (push node s). by rewrite Hrest.
  - intros fuel node o a nextNode s s' Ho Ha Hl Hf Hin Hrest.
    rewrite (IdMerge_step nodes idName nodeList linkId Hlisted
               imergeProperty mergeFunction fuel node o s Ho Hl).
    cbn zeta. rewrite Hf, Ha. rewrite bool_decide_eq_false_2 by done.
    by rewrite Hrest.
  - intros o a b ob Ho Ha Hl Hb Hob Hpb Hend.
    assert (Hnext : next_direct heap linkName startNode = Some b).
    { unfold next_direct. by rewrite Ho. }
    assert (Hpa : prop_of heap mergeProperty startNode = Some a).
    { unfold prop_of. by rewrite Ho. }
    destruct (Merge_returns heap startNode Hstart linkName Hclosed
                mergeProperty mergeFunction) as (p & Hc & Hr).
    destruct (chain_goes_on _ _ _ _ Hc Hnext Hb) as (q & -> & Hnotin).
    rewrite Hr.
    assert (q = []) as ->.
    { destruct q as [|c q]; [done|].
      destruct Hc as [_ Hnd [_ [Hbc _]] _].
      unfold next_direct in Hbc. rewrite Hob in Hbc. simpl in Hbc.
      apply NoDup_cons in Hnd as [Hs Hnd]. apply NoDup_cons in Hnd as [Hb' _].
      destruct (Hend c Hbc) as [->| ->].
      - destruct Hs. right. left.
      - destruct Hb'. left. }
    assert (Hpb' : prop_of heap mergeProperty b = None).
    { unfold prop_of. by rewrite Hob. }
    rewrite !fmap_cons, merged_cons, !merges_cons, Hpa, Hpb'.
    change (prop_of heap mergeProperty <$> [b])
      with [prop_of heap mergeProperty b].
    by rewrite Hpb'.
Qed.

Lemma merge_is_called_with_undefined_farther_witness :
  closed tail_absent d_parent = true ∧ is_Some (tail_absent !! 0) ∧
  listed tail_absent_id [0; 1; 2] = true ∧ is_Some (tail_absent_id !! 0) ∧
  ∃ v s,
    Merge.walkChainMerge tail_absent d_parent d_config sum 0
      = Returned (v, s) ∧
    Merge None (Some 2) ∈ trace s ∧
    v = fold_nearer sum (sum None (Some 2)) [Some 1].
Proof.
  assert (H1 : closed tail_absent d_parent = true) by (vm_compute; reflexivity).
  assert (H2 : is_Some (tail_absent !! 0)) by (vm_compute; eauto).
  assert (H3 : listed tail_absent_id [0; 1; 2] = true)
    by (vm_compute; reflexivity).
  assert (H4 : is_Some (tail_absent_id !! 0)) by (vm_compute; eauto).
  split_and!; [exact H1|exact H2|exact H3|exact H4|].
  destruct (proj1 (merge_is_called_with_undefined_farther tail_absent d_parent
              tail_absent_id [0; 1; 2] i_parent i_id d_config i_config sum
              0 0 H1 H2 H3 H4))
    as (v & s & Hr & _ & Hcall).
  exists v, s. split; [exact Hr|].
  assert (Hs : visitedNodes s = [0] ++ 1 :: [2]).
  { vm_compute in Hr. by injection Hr as <- <-. }
  apply (Hcall [0] 1 [2] 2 Hs); [done|by vm_compute|].
  intros n ->%list_elem_of_singleton. by vm_compute.
Defined.

(** * Further properties of the walks *)

(** ** The nodes visited *)

Section ChainMore.
Variable next : ref → option ref.

Lemma linked_reachable a q r :
  linked next (a :: q) → r ∈ a :: q → reachable next a r.
Proof.
  revert a. induction q as [|b q IH]; intros a Hl Hr.
  - apply list_elem_of_singleton in Hr as ->. apply rtc_refl.
  - apply elem_of_cons in Hr as [->|Hr]; [apply rtc_refl|].
    destruct Hl as [Hn Hl]. eapply rtc_l; [exact Hn|]. by apply IH.
Qed.

Lemma linked_app_next l1 a c l2 :
  linked next (l1 ++ a :: c :: l2) → next a = Some c.
Proof.
  induction l1 as [|x l1 IH]; simpl.
  - by intros [? _].
  - intros [_ Hl]. by apply IH.
Qed.

Lemma chain_closed_next startNode p a b :
  chain next startNode p → a ∈ p → next a = Some b → b ∈ p.
Proof.
  intros [_ _ Hl (n & Hlast & Hstop)] Ha Hn.
  apply list_elem_of_split in Ha as (l1 & l2 & ->).
  destruct l2 as [|c l2].
  - rewrite last_snoc in Hlast. injection Hlast as <-. by apply Hstop.
  - apply linked_app_next in Hl. rewrite Hn in Hl. injection Hl as ->.
    apply elem_of_app. right. right. left.
Qed.

Lemma chain_reachable_iff startNode p r :
  chain next startNode p → r ∈ p ↔ reachable next startNode r.
Proof.
  intros Hc. split.
  - destruct Hc as [Hh _ Hl _]. destruct p as [|a q]; [done|].
    injection Hh as ->. by apply linked_reachable.
  - revert r. apply (rtc_ind_r (λ r, r ∈ p)).
    + destruct Hc as [Hh _ _ _]. destruct p as [|a q]; [done|].
      injection Hh as ->. left.
    + intros a b _ Hn IH. by eapply chain_closed_next.
Qed.
End ChainMore.

(** X1: the walk visits the nodes that can be reached from the start node
    by following links, all of them and each of them once, on a chain with
    a cycle as on one without; so do the identifier walks, where a node
    leads to the one [find] gives for its link. *)
Theorem walk_visits_what_is_reachable {obj iobj V D : Type}
    (heap : gmap ref obj) (linkName : obj → option ref)
    (nodes : gmap ref iobj) (nodeList : list ref) (linkId idName : iobj → idval)
    (callback : ref → option V → option D → option V) (data : option D)
    (startNode istartNode : ref) :
  closed heap linkName = true → is_Some (heap !! startNode) →
  listed nodes nodeList = true → is_Some (nodes !! istartNode) →
  (∃ v s,
     CallSync.walkChainCallSync heap linkName callback data startNode
       = Returned (v, s) ∧
     NoDup (visitedNodes s) ∧
     ∀ r, r ∈ visitedNodes s ↔ reachable (next_direct heap linkName) startNode r) ∧
  (∃ v s,
     IdCallSync.walkChainIdCallSync nodes nodeList linkId idName callback data
       istartNode = Returned (v, s) ∧
     NoDup (visitedNodes s) ∧
     ∀ r, r ∈ visitedNodes s ↔
          reachable (next_id nodes nodeList linkId idName) istartNode r).
Proof.
  intros Hclosed Hstart Hlisted Histart. split.
  - destruct (CallSync_returns heap startNode Hstart linkName Hclosed
                callback data) as (p & Hc & Hr).
    eexists _, _. split; [exact Hr|]. cbn [visitedNodes].
    split; [by destruct Hc|]. intros r. by apply chain_reachable_iff.
  - destruct (IdCallSync_returns nodes istartNode Histart nodeList linkId
                idName Hlisted callback data) as (p & Hc & Hr).
    eexists _, _. split; [exact Hr|]. cbn [visitedNodes].
    split; [by destruct Hc|]. intros r. by apply chain_reachable_iff.
Qed.

Lemma walk_visits_what_is_reachable_witness :
  closed cycle d_parent = true ∧ is_Some (cycle !! 0) ∧
  listed twins [1; 2] = true ∧ is_Some (twins !! 0) ∧
  ∃ v s,
    CallSync.walkChainCallSync cycle d_parent count None 0 = Returned (v, s) ∧
    NoDup (visitedNodes s) ∧
    ∀ r, r ∈ visitedNodes s ↔ reachable (next_direct cycle d_parent) 0 r.
Proof.
  assert (H1 : closed cycle d_parent = true) by (vm_compute; reflexivity).
  assert (H2 : is_Some (cycle !! 0)) by (vm_compute; eauto).
  assert (H3 : listed twins [1; 2] = true) by (vm_compute; reflexivity).
  assert (H4 : is_Some (twins !! 0)) by (vm_compute; eauto).
  split_and!; [exact H1|exact H2|exact H3|exact H4|].
  exact (proj1 (walk_visits_what_is_reachable cycle d_parent twins [1; 2]
                  i_parent i_id count None 0 0 H1 H2 H3 H4)).
Defined.

(** X2: which nodes are visited depends on the links alone. The three
    direct walks visit the same nodes in the same order whatever the
    callback returns and whatever the local property values and the merge
    function are, and so do the three identifier walks. *)
Theorem all_modes_visit_the_same_nodes {obj iobj V D : Type}
    (heap : gmap ref obj) (linkName : obj → option ref)
    (nodes : gmap ref iobj) (nodeList : list ref) (linkId idName : iobj → idval)
    (startNode istartNode : ref) :
  closed heap linkName = true → is_Some (heap !! startNode) →
  listed nodes nodeList = true → is_Some (nodes !! istartNode) →
  (∃ p,
     (∀ (callback : ref → option V → option D → option V) data, ∃ v tr,
        CallSync.walkChainCallSync heap linkName callback data startNode
        = Returned (v, State p tr)) ∧
     (∀ (callback : ref → option V → option D → promise V) data now, ∃ v tr,
        (run (Call.walkChainCall heap linkName callback data startNode)
           now []).1.1 = Returned (v, State p tr)) ∧
     (∀ (mergeProperty : obj → option V) mergeFunction, ∃ v tr,
        Merge.walkChainMerge heap linkName mergeProperty mergeFunction startNode
        = Returned (v, State p tr))) ∧
  (∃ p,
     (∀ (callback : ref → option V → option D → option V) data, ∃ v tr,
        IdCallSync.walkChainIdCallSync nodes nodeList linkId idName callback
          data istartNode = Returned (v, State p tr)) ∧
     (∀ (callback : ref → option V → option D → promise V) data now, ∃ v tr,
        (run (IdCall.walkChainIdCall nodes nodeList linkId idName callback
                data istartNode) now []).1.1 = Returned (v, State p tr)) ∧
     (∀ (imergeProperty : iobj → option V) mergeFunction, ∃ v tr,
        IdMerge.walkChainIdMerge nodes nodeList linkId idName imergeProperty
          mergeFunction istartNode = Returned (v, State p tr))).
Proof.
  intros Hclosed Hstart Hlisted Histart. split.
  - destruct (walk_direct_total heap linkName startNode Hclosed Hstart)
      as (p & Hw & _).
    exists p. split_and!.
    + intros callback data. eexists _, _.
      unfold CallSync.walkChainCallSync.
      rewrite CallSync_recursion_walk by done. simpl visitedNodes.
      by rewrite Hw.
    + intros callback data now. eexists _, _.
      unfold Call.walkChainCall.
      rewrite Call_run_result, CallSync_recursion_walk by done.
      simpl visitedNodes. by rewrite Hw.
    + intros mergeProperty mergeFunction. eexists _, _.
      unfold Merge.walkChainMerge.
      rewrite Merge_recursion_walk by done. simpl visitedNodes.
      by rewrite Hw.
  - destruct (walk_id_total nodes nodeList linkId idName istartNode Histart)
      as (p & Hw & _).
    exists p. split_and!.
    + intros callback data. eexists _, _.
      unfold IdCallSync.walkChainIdCallSync.
      rewrite IdCallSync_recursion_walk by done. simpl visitedNodes.
      by rewrite Hw.
    + intros callback data now. eexists _, _.
      unfold IdCall.walkChainIdCall.
      rewrite IdCall_run_result, IdCallSync_recursion_walk by done.
      simpl visitedNodes. by rewrite Hw.
    + intros imergeProperty mergeFunction. eexists _, _.
      unfold IdMerge.walkChainIdMerge.
      rewrite IdMerge_recursion_walk by done. simpl visitedNodes.
      by rewrite Hw.
Qed.

Lemma all_modes_visit_the_same_nodes_witness :
  closed cycle d_parent = true ∧ is_Some (cycle !! 0) ∧
  listed twins [1; 2] = true ∧ is_Some (twins !! 0) ∧
  ∃ p,
    (∀ (callback : ref → option nat → option unit → option nat) data, ∃ v tr,
       IdCallSync.walkChainIdCallSync twins [1; 2] i_parent i_id callback
         data 0 = Returned (v, State p tr)) ∧
    (∀ (callback : ref → option nat → option unit → promise nat) data now,
     ∃ v tr,
       (run (IdCall.walkChainIdCall twins [1; 2] i_parent i_id callback
               data 0) now []).1.1 = Returned (v, State p tr)) ∧
    (∀ (imergeProperty : inode nat → option nat) mergeFunction, ∃ v tr,
       IdMerge.walkChainIdMerge twins [1; 2] i_parent i_id imergeProperty
         mergeFunction 0 = Returned (v, State p tr)).
Proof.
  assert (H1 : closed cycle d_parent = true) by (vm_compute; reflexivity).
  assert (H2 : is_Some (cycle !! 0)) by (vm_compute; eauto).
  assert (H3 : listed twins [1; 2] = true) by (vm_compute; reflexivity).
  assert (H4 : is_Some (twins !! 0)) by (vm_compute; eauto).
  split_and!; [exact H1|exact H2|exact H3|exact H4|].
  exact (proj2 (all_modes_visit_the_same_nodes cycle d_parent twins [1; 2]
                  i_parent i_id 0 0 H1 H2 H3 H4)).
Defined.

(** ** The identifier walks *)

Lemma compares_not_invoked {iobj V} (nodes : gmap ref iobj) idName linkId l :
  omap invoked_on (compares (V:=V) nodes idName linkId l) = [].
Proof.
  induction l as [|nd rest IH]; [done|]. simpl.
  by destruct (matches nodes idName linkId nd).
Qed.

Lemma search_not_invoked {iobj V} (nodes : gmap ref iobj) nodeList linkId
    idName node :
  omap invoked_on (search (V:=V) nodes nodeList linkId idName node) = [].
Proof.
  unfold search. destruct (nodes !! node) as [o|]; [|done].
  destruct (is_undefined (linkId o)); [done|apply compares_not_invoked].
Qed.

Lemma linked_first_match {iobj} (nodes : gmap ref iobj) nodeList linkId idName
    a q :
  linked (next_id nodes nodeList linkId idName) (a :: q) →
  ∀ node, node ∈ q → node ∈ nodeList.
Proof.
  revert a. induction q as [|b q IH]; intros a Hl node Hn;
    [by apply elem_of_nil in Hn|].
  destruct Hl as [Hab Hl].
  apply elem_of_cons in Hn as [->|Hn]; [|by eapply IH].
  unfold next_id in Hab. destruct (nodes !! a) as [o|]; simpl in Hab; [|done].
  destruct (is_undefined (linkId o)); [done|].
  apply first_match_heap in Hab. tauto.
Qed.

(** X3: in the identifier walks every node visited after the start node is
    an element of the collection, whether the start node is one or not; the
    callback is invoked on the start node and on collection nodes only. *)
Theorem id_walk_stays_in_the_collection {iobj V D : Type}
    (nodes : gmap ref iobj) (nodeList : list ref) (linkId idName : iobj → idval)
    (callback : ref → option V → option D → option V) (data : option D)
    (imergeProperty : iobj → option V)
    (mergeFunction : option V → option V → option V) (istartNode : ref) :
  listed nodes nodeList = true → is_Some (nodes !! istartNode) →
  (∃ v s q,
     IdCallSync.walkChainIdCallSync nodes nodeList linkId idName callback data
       istartNode = Returned (v, s) ∧
     visitedNodes s = istartNode :: q ∧
     (∀ node, node ∈ q → node ∈ nodeList) ∧
     ∀ node lastValue, Callback node lastValue ∈ trace s →
                       node = istartNode ∨ node ∈ nodeList) ∧
  (∃ v s q,
     IdMerge.walkChainIdMerge nodes nodeList linkId idName imergeProperty
       mergeFunction istartNode = Returned (v, s) ∧
     visitedNodes s = istartNode :: q ∧
     ∀ node, node ∈ q → node ∈ nodeList).
Proof.
  intros Hlisted Histart. split.
  - destruct (IdCallSync_returns nodes istartNode Histart nodeList linkId
                idName Hlisted callback data) as (p & Hc & Hr).
    destruct Hc as [Hh _ Hl _]. destruct p as [|a q]; [done|].
    injection Hh as ->.
    eexists _, _, q. split; [exact Hr|]. cbn [visitedNodes trace].
    split; [done|]. split; [by eapply linked_first_match|].
    intros node lastValue Hin.
    assert (Hnode : node ∈ istartNode :: q).
    { rewrite <- (calls_invoked_on callback data
                    (search nodes nodeList linkId idName) (istartNode :: q)
                    (search_not_invoked nodes nodeList linkId idName) None).
      apply list_elem_of_omap. by exists (Callback node lastValue). }
    apply elem_of_cons in Hnode as [->|Hq]; [by left|right].
    by eapply linked_first_match.
  - destruct (IdMerge_returns nodes istartNode Histart nodeList linkId
                idName Hlisted imergeProperty mergeFunction) as (p & Hc & Hr).
    destruct Hc as [Hh _ Hl _]. destruct p as [|a q]; [done|].
    injection Hh as ->.
    eexists _, _, q. split; [exact Hr|]. cbn [visitedNodes].
    split; [done|]. by eapply linked_first_match.
Qed.

Lemma id_walk_stays_in_the_collection_witness :
  listed twins [1; 2] = true ∧ is_Some (twins !! 0) ∧
  ∃ v s q,
    IdMerge.walkChainIdMerge twins [1; 2] i_parent i_id i_config sum 0
      = Returned (v, s) ∧
    visitedNodes s = 0 :: q ∧ ∀ node, node ∈ q → node ∈ [1; 2].
Proof.
  assert (H3 : listed twins [1; 2] = true) by (vm_compute; reflexivity).
  assert (H4 : is_Some (twins !! 0)) by (vm_compute; eauto).
  split_and!; [exact H3|exact H4|].
  exact (proj2 (id_walk_stays_in_the_collection twins [1; 2] i_parent i_id
                  count None i_config sum 0 H3 H4)).
Defined.

Lemma IdCallSync_recursion_ext {iobj V D} (nodes : gmap ref iobj) nodeList
    linkId idName (callback callback' : ref → option V → option D → option V)
    data :
  (∀ node lastValue d, callback' node lastValue d = callback node lastValue d) →
  ∀ fuel node lastValue s,
    IdCallSync.recursion nodes nodeList linkId idName callback' data
      fuel node lastValue s
    = IdCallSync.recursion nodes nodeList linkId idName callback data
        fuel node lastValue s.
Proof.
  intros Hext fuel. induction fuel as [|fuel IH]; intros node lastValue s;
    simpl; [done|].
  rewrite Hext. destruct (nodes !! node) as [o|]; [|done].
  destruct (is_undefined (linkId o)); [done|].
  destruct (find nodes idName (linkId o) nodeList _) as [[nextNode s']| |];
    [|done|done].
  destruct (includes _ _); [done|]. destruct nextNode; [apply IH|done].
Qed.

(** X4: the asynchronous identifier walk, too, awaits each callback before
    it searches for the next node: it ends as [walkChainIdCallSync] does
    with the values the promises settle with, one callback is in flight at
    a time, each invoked when the one before it completed, and the delays
    of the promises do not change the result. *)
Theorem async_id_walk_is_sequential {iobj V D : Type}
    (nodes : gmap ref iobj) (nodeList : list ref) (linkId idName : iobj → idval)
    (callback : ref → option V → option D → promise V) (data : option D)
    (istartNode : ref) (now : nat) :
  listed nodes nodeList = true → is_Some (nodes !! istartNode) →
  let r := run (IdCall.walkChainIdCall nodes nodeList linkId idName callback
                  data istartNode) now [] in
  r.1.1 = IdCallSync.walkChainIdCallSync nodes nodeList linkId idName
            (resolved callback) data istartNode ∧
  (∃ v s,
     r.1.1 = Returned (v, s) ∧
     r.2 = flights callback data (visitedNodes s) None now ∧
     length r.2 = length (visitedNodes s)) ∧
  sequential r.2 ∧
  (∀ callback' : ref → option V → option D → promise V,
     (∀ node lastValue d,
        settled (callback' node lastValue d)
        = settled (callback node lastValue d)) →
     (run (IdCall.walkChainIdCall nodes nodeList linkId idName callback' data
             istartNode) now []).1.1 = r.1.1).
Proof.
  intros Hlisted Histart r.
  destruct (IdCall_returns nodes istartNode Histart nodeList linkId idName
              Hlisted callback data now) as (p & Hc & Hr & Hlog).
  fold r in Hr, Hlog. split_and!.
  - apply IdCall_run_result.
  - eexists _, _. split; [exact Hr|]. cbn [visitedNodes].
    split; [done|]. rewrite Hlog. apply flights_length.
  - rewrite Hlog. apply sequential_flights.
  - intros callback' Hext. unfold r, IdCall.walkChainIdCall.
    rewrite !IdCall_run_result. by apply IdCallSync_recursion_ext.
Qed.

Lemma async_id_walk_is_sequential_witness :
  listed twins [1; 2] = true ∧ is_Some (twins !! 0) ∧
  sequential
    (run (IdCall.walkChainIdCall twins [1; 2] i_parent i_id staggered None 0)
       0 []).2.
Proof.
  assert (H3 : listed twins [1; 2] = true) by (vm_compute; reflexivity).
  assert (H4 : is_Some (twins !! 0)) by (vm_compute; eauto).
  split_and!; [exact H3|exact H4|].
  exact (proj1 (proj2 (proj2 (async_id_walk_is_sequential twins [1; 2]
                                i_parent i_id staggered None 0 0 H3 H4)))).
Defined.

(** ** Counting the calls *)

Lemma filter_none {A} (f : A → bool) (l : list A) :
  (∀ x, x ∈ l → f x = false) → List.filter f l = [].
Proof.
  induction l as [|a l IH]; intros H; [done|]. simpl.
  rewrite (H a) by left. apply IH. intros x Hx. apply H. by right.
Qed.

Lemma filter_length_bound {A} (f : A → bool) (l : list A) :
  length (List.filter f l) ≤ length l.
Proof.
  induction l as [|a l IH]; [done|]. simpl. destruct (f a); simpl; lia.
Qed.

Section Counting.
Context {V : Type}.
Variable mergeFunction : option V → option V → option V.
Variable heap_prop : ref → option V.
Variable searching : ref → list (event V).
Hypothesis searching_no_merge :
  ∀ node e, e ∈ searching node → is_merge e = false.

Lemma merge_calls_merges q : ∀ node,
  merge_calls (merges mergeFunction heap_prop searching (q ++ [node]))
  = with_property heap_prop q.
Proof.
  unfold merge_calls, with_property.
  induction q as [|a q IH]; intros node.
  - simpl. rewrite app_nil_r.
    by rewrite filter_none by apply searching_no_merge.
  - change ((a :: q) ++ [node]) with (a :: (q ++ [node])).
    rewrite merges_cons, !List.filter_app, !length_app, IH.
    rewrite filter_none by apply searching_no_merge.
    simpl. destruct (q ++ [node]) as [|b r] eqn:Hq;
      [by destruct q|].
    destruct (heap_prop a) as [v|]; simpl; lia.
Qed.
End Counting.

Lemma merges_only_merge_events {V}
    (mergeFunction : option V → option V → option V) heap_prop searching p :
  (∀ node e, e ∈ searching node → is_merge e = false) →
  List.filter is_merge (merges mergeFunction heap_prop searching p)
  = merges mergeFunction heap_prop (λ _, []) p.
Proof.
  intros Hs. induction p as [|a q IH]; [done|].
  rewrite !merges_cons, !List.filter_app, IH.
  rewrite filter_none by apply Hs.
  destruct q; [done|]. by destruct (heap_prop a).
Qed.

(** X5: in merge mode the merge function is called exactly once for each
    visited node that has a local property value and is not the last node
    visited, and for no other node. The calls are, the farthest node first,
    [mergeFunction(result of the nodes after the node, the node's value)]
    for these nodes of the chain and nothing else; so there are as many
    calls as such nodes, fewer than nodes visited. *)
Theorem merge_is_called_once_per_node_with_property {obj iobj V : Type}
    (heap : gmap ref obj) (linkName : obj → option ref)
    (nodes : gmap ref iobj) (nodeList : list ref) (linkId idName : iobj → idval)
    (mergeProperty : obj → option V) (imergeProperty : iobj → option V)
    (mergeFunction : option V → option V → option V)
    (startNode istartNode : ref) :
  closed heap linkName = true → is_Some (heap !! startNode) →
  listed nodes nodeList = true → is_Some (nodes !! istartNode) →
  (∃ v s q node,
     Merge.walkChainMerge heap linkName mergeProperty mergeFunction startNode
       = Returned (v, s) ∧
     chain (next_direct heap linkName) startNode (visitedNodes s) ∧
     visitedNodes s = q ++ [node] ∧
     List.filter is_merge (trace s)
     = merges mergeFunction (prop_of heap mergeProperty) (λ _, [])
         (visitedNodes s) ∧
     (∀ nodeOne nodeTwo,
        Merge nodeOne nodeTwo ∈ trace s ↔
        ∃ q1 n q2 a,
          visitedNodes s = q1 ++ n :: q2 ∧ q2 ≠ [] ∧
          prop_of heap mergeProperty n = Some a ∧ nodeTwo = Some a ∧
          nodeOne = merged mergeFunction (prop_of heap mergeProperty <$> q2)) ∧
     merge_calls (trace s) = with_property (prop_of heap mergeProperty) q ∧
     length (trace s) = merge_calls (trace s) ∧
     merge_calls (trace s) < length (visitedNodes s)) ∧
  (∃ v s q node,
     IdMerge.walkChainIdMerge nodes nodeList linkId idName imergeProperty
       mergeFunction istartNode = Returned (v, s) ∧
     chain (next_id nodes nodeList linkId idName) istartNode (visitedNodes s) ∧
     visitedNodes s = q ++ [node] ∧
     List.filter is_merge (trace s)
     = merges mergeFunction (prop_of nodes imergeProperty) (λ _, [])
         (visitedNodes s) ∧
     (∀ nodeOne nodeTwo,
        Merge nodeOne nodeTwo ∈ trace s ↔
        ∃ q1 n q2 a,
          visitedNodes s = q1 ++ n :: q2 ∧ q2 ≠ [] ∧
          prop_of nodes imergeProperty n = Some a ∧ nodeTwo = Some a ∧
          nodeOne = merged mergeFunction (prop_of nodes imergeProperty <$> q2)) ∧
     merge_calls (trace s) = with_property (prop_of nodes imergeProperty) q ∧
     merge_calls (trace s) < length (visitedNodes s)).
Proof.
  intros Hclosed Hstart Hlisted Histart. split.
  - destruct (Merge_returns heap startNode Hstart linkName Hclosed
                mergeProperty mergeFunction) as (p & Hc & Hr).
    assert (Hc' := Hc). destruct Hc' as [_ _ _ (n & Hlast & _)].
    apply last_Some in Hlast as [q ->].
    eexists _, _, q, n. split; [exact Hr|]. cbn [visitedNodes trace].
    assert (Hm : merge_calls
                   (merges mergeFunction (prop_of heap mergeProperty)
                      (λ _, []) (q ++ [n]))
                 = with_property (prop_of heap mergeProperty) q).
    { apply merge_calls_merges. by intros ? ? ?%elem_of_nil. }
    split_and!; [done|done| | |done| |].
    + apply merges_only_merge_events. by intros ? ? ?%elem_of_nil.
    + intros nodeOne nodeTwo. split.
      * intros Hin.
        destruct (merges_inv mergeFunction (prop_of heap mergeProperty)
                    (λ _, [])
                    (λ node e (H : e ∈ []), False_ind _ (not_elem_of_nil e H))
                    _ _ _ Hin)
          as (q1 & m & q2 & Hq & Hq2 & -> & Hn & ->).
        destruct (prop_of heap mergeProperty m) as [a|] eqn:Ha; [|done].
        by exists q1, m, q2, a.
      * intros (q1 & m & q2 & a & -> & Hq2 & Ha & -> & ->).
        by apply merges_elem.
    + unfold merge_calls. clear Hr Hm Hc. generalize (q ++ [n]). intros p.
      induction p as [|a p IH]; [done|].
      rewrite merges_cons, List.filter_app, !length_app, IH. simpl.
      rewrite List.filter_app, length_app.
      destruct p; [done|]. by destruct (prop_of heap mergeProperty a).
    + rewrite Hm, length_app. unfold with_property. simpl.
      pose proof (filter_length_bound
        (λ node, bool_decide (is_Some (prop_of heap mergeProperty node))) q).
      lia.
  - destruct (IdMerge_returns nodes istartNode Histart nodeList linkId idName
                Hlisted imergeProperty mergeFunction) as (p & Hc & Hr).
    assert (Hc' := Hc). destruct Hc' as [_ _ _ (n & Hlast & _)].
    apply last_Some in Hlast as [q ->].
    eexists _, _, q, n. split; [exact Hr|]. cbn [visitedNodes trace].
    assert (Hm : merge_calls
                   (merges mergeFunction (prop_of nodes imergeProperty)
                      (search nodes nodeList linkId idName) (q ++ [n]))
                 = with_property (prop_of nodes imergeProperty) q).
    { apply merge_calls_merges. apply search_no_merge. }
    split_and!; [done|done| | |done|].
    + apply merges_only_merge_events. apply search_no_merge.
    + intros nodeOne nodeTwo. split.
      * intros Hin.
        destruct (merges_inv mergeFunction (prop_of nodes imergeProperty)
                    (search nodes nodeList linkId idName)
                    (search_no_merge nodes nodeList linkId idName)
                    _ _ _ Hin)
          as (q1 & m & q2 & Hq & Hq2 & -> & Hn & ->).
        destruct (prop_of nodes imergeProperty m) as [a|] eqn:Ha; [|done].
        by exists q1, m, q2, a.
      * intros (q1 & m & q2 & a & -> & Hq2 & Ha & -> & ->).
        by apply merges_elem.
    + rewrite Hm, length_app. unfold with_property. simpl.
      pose proof (filter_length_bound
        (λ node, bool_decide (is_Some (prop_of nodes imergeProperty node))) q).
      lia.
Qed.

Lemma merge_is_called_once_per_node_with_property_witness :
  closed tail_absent d_parent = true ∧ is_Some (tail_absent !! 0) ∧
  listed tail_absent_id [0; 1; 2] = true ∧ is_Some (tail_absent_id !! 0) ∧
  ∃ v s q node,
    IdMerge.walkChainIdMerge tail_absent_id [0; 1; 2] i_parent i_id i_config
      sum 0 = Returned (v, s) ∧
    chain (next_id tail_absent_id [0; 1; 2] i_parent i_id) 0 (visitedNodes s) ∧
    visitedNodes s = q ++ [node] ∧
    List.filter is_merge (trace s)
    = merges sum (prop_of tail_absent_id i_config) (λ _, []) (visitedNodes s) ∧
    (∀ nodeOne nodeTwo,
       Merge nodeOne nodeTwo ∈ trace s ↔
       ∃ q1 n q2 a,
         visitedNodes s = q1 ++ n :: q2 ∧ q2 ≠ [] ∧
         prop_of tail_absent_id i_config n = Some a ∧ nodeTwo = Some a ∧
         nodeOne = merged sum (prop_of tail_absent_id i_config <$> q2)) ∧
    merge_calls (trace s) = with_property (prop_of tail_absent_id i_config) q ∧
    merge_calls (trace s) < length (visitedNodes s).
Proof.
  assert (H1 : closed tail_absent d_parent = true) by (vm_compute; reflexivity).
  assert (H2 : is_Some (tail_absent !! 0)) by (vm_compute; eauto).
  assert (H3 : listed tail_absent_id [0; 1; 2] = true)
    by (vm_compute; reflexivity).
  assert (H4 : is_Some (tail_absent_id !! 0)) by (vm_compute; eauto).
  split_and!; [exact H1|exact H2|exact H3|exact H4|].
  exact (proj2 (merge_is_called_once_per_node_with_property tail_absent d_parent
                  tail_absent_id [0; 1; 2] i_parent i_id d_config i_config
                  sum 0 0 H1 H2 H3 H4)).
Defined.

Section Comparisons.
Context {iobj V : Type}.
Variable nodes : gmap ref iobj.
Variable nodeList : list ref.
Variable linkId idName : iobj → idval.

Lemma comparisons_compares linkValue (l : list ref) :
  comparisons (compares (V:=V) nodes idName linkValue l) ≤ length l.
Proof.
  unfold comparisons. induction l as [|nd rest IH]; [done|]. simpl.
  destruct (matches nodes idName linkValue nd); simpl; lia.
Qed.

Lemma comparisons_search node :
  comparisons (search (V:=V) nodes nodeList linkId idName node)
  ≤ length nodeList.
Proof.
  unfold search. destruct (nodes !! node) as [o|]; [|unfold comparisons; simpl; lia].
  destruct (is_undefined (linkId o)); [unfold comparisons; simpl; lia|].
  apply comparisons_compares.
Qed.

Lemma comparisons_calls {D} (callback : ref → option V → option D → option V)
    data p : ∀ lastValue,
  comparisons (calls callback data (search nodes nodeList linkId idName)
                 p lastValue)
  ≤ length p * length nodeList.
Proof.
  induction p as [|a q IH]; intros lastValue; [done|].
  cbn [calls]. unfold comparisons in *. cbn [List.filter is_comparison].
  rewrite List.filter_app, length_app.
  pose proof (comparisons_search a) as Ha. unfold comparisons in Ha.
  specialize (IH (callback a lastValue data)). simpl. lia.
Qed.

Lemma comparisons_merges (heap_prop : ref → option V) mergeFunction p :
  comparisons (merges mergeFunction heap_prop
                 (search nodes nodeList linkId idName) p)
  ≤ length p * length nodeList.
Proof.
  induction p as [|a q IH]; [done|].
  rewrite merges_cons. unfold comparisons in *.
  rewrite !List.filter_app, !length_app.
  pose proof (comparisons_search a) as Ha. unfold comparisons in Ha.
  assert (length (List.filter is_comparison
            match q, heap_prop a with
            | _ :: _, Some v =>
              [Merge (merged mergeFunction (heap_prop <$> q)) (Some v)]
            | _, _ => []
            end) = 0) as ->.
  { destruct q; [done|]. by destruct (heap_prop a). }
  simpl. lia.
Qed.
End Comparisons.

(** X6: an identifier walk compares at most as many elements of the
    collection as the collection has, for each node it visits: the number of
    evaluations of [nd[idName] == linkId] in a whole walk is at most the
    number of nodes visited times the length of [nodeList]. *)
Theorem id_walk_comparisons_are_bounded {iobj V D : Type}
    (nodes : gmap ref iobj) (nodeList : list ref) (linkId idName : iobj → idval)
    (callback : ref → option V → option D → option V) (data : option D)
    (imergeProperty : iobj → option V)
    (mergeFunction : option V → option V → option V) (istartNode : ref) :
  listed nodes nodeList = true → is_Some (nodes !! istartNode) →
  (∃ v s,
     IdCallSync.walkChainIdCallSync nodes nodeList linkId idName callback data
       istartNode = Returned (v, s) ∧
     comparisons (trace s) ≤ length (visitedNodes s) * length nodeList) ∧
  (∃ v s,
     IdMerge.walkChainIdMerge nodes nodeList linkId idName imergeProperty
       mergeFunction istartNode = Returned (v, s) ∧
     comparisons (trace s) ≤ length (visitedNodes s) * length nodeList).
Proof.
  intros Hlisted Histart. split.
  - destruct (IdCallSync_returns nodes istartNode Histart nodeList linkId
                idName Hlisted callback data) as (p & _ & Hr).
    eexists _, _. split; [exact Hr|]. apply comparisons_calls.
  - destruct (IdMerge_returns nodes istartNode Histart nodeList linkId
                idName Hlisted imergeProperty mergeFunction) as (p & _ & Hr).
    eexists _, _. split; [exact Hr|]. apply comparisons_merges.
Qed.

Lemma id_walk_comparisons_are_bounded_witness :
  listed anonymous [0; 1; 2; 3] = true ∧ is_Some (anonymous !! 3) ∧
  ∃ v s,
    IdCallSync.walkChainIdCallSync anonymous [0; 1; 2; 3] i_parent i_id count
      None 3 = Returned (v, s) ∧
    comparisons (trace s) ≤ length (visitedNodes s) * length [0; 1; 2; 3].
Proof.
  assert (H3 : listed anonymous [0; 1; 2; 3] = true) by (vm_compute; reflexivity).
  assert (H4 : is_Some (anonymous !! 3)) by (vm_compute; eauto).
  split_and!; [exact H3|exact H4|].
  exact (proj1 (id_walk_comparisons_are_bounded anonymous [0; 1; 2; 3]
                  i_parent i_id count None i_config sum 3 H3 H4)).
Defined.

(** ** Unique identifiers *)

Lemma loose_eq_common a b c :
  loose_eq a c = true → loose_eq b c = true → loose_eq a b = true.
Proof.
  destruct a, b, c; simpl; try done.
  intros ->%bool_decide_eq_true ->%bool_decide_eq_true.
  by apply bool_decide_eq_true.
Qed.

Lemma walk_ext next next' :
  (∀ node, next node = next' node) →
  ∀ fuel node visited, walk next fuel node visited = walk next' fuel node visited.
Proof.
  intros Hext fuel. induction fuel as [|fuel IH]; intros node visited;
    simpl; [done|].
  rewrite <- Hext. destruct (next node); [|done].
  case_bool_decide; [done|]. by rewrite IH.
Qed.

Section Unique.
Context {iobj : Type}.
Variable nodes : gmap ref iobj.
Variable idName : iobj → idval.

Lemma unique_ids_matches (l : list ref) linkValue x y :
  unique_ids nodes idName l = true →
  x ∈ l → y ∈ l →
  matches nodes idName linkValue x = true →
  matches nodes idName linkValue y = true → x = y.
Proof.
  unfold unique_ids, matches. intros Hu Hx Hy Hmx Hmy.
  rewrite forallb_forall in Hu. apply list_elem_of_In in Hx, Hy.
  specialize (Hu x Hx). rewrite forallb_forall in Hu. specialize (Hu y Hy).
  destruct (nodes !! x) as [ox|]; [|done].
  destruct (nodes !! y) as [oy|]; [|done].
  apply orb_true_iff in Hu as [Hu|Hu]; [by apply bool_decide_eq_true in Hu|].
  rewrite (loose_eq_common _ _ _ Hmx Hmy) in Hu. done.
Qed.

Lemma first_match_permutation (l l' : list ref) linkValue :
  unique_ids nodes idName l = true → l ≡ₚ l' →
  first_match nodes idName linkValue l = first_match nodes idName linkValue l'.
Proof.
  intros Hu Hp.
  destruct (first_match nodes idName linkValue l) as [nd|] eqn:Hf.
  - apply first_match_heap in Hf as (Hin & _ & Hm).
    destruct (first_match nodes idName linkValue l') as [nd'|] eqn:Hf'.
    + apply first_match_heap in Hf' as (Hin' & _ & Hm').
      f_equal. eapply unique_ids_matches; [done|done| |done|done].
      by rewrite Hp.
    + rewrite first_match_None in Hf'. rewrite Hf' in Hm; [done|].
      by rewrite <- Hp.
  - symmetry. rewrite first_match_None in Hf. apply first_match_None.
    intros x Hx. apply Hf. by rewrite Hp.
Qed.
End Unique.

(** X7: when the identifiers of the collection are unique, as the source
    assumes, the order of [nodeList] does not matter: with the collection
    in any other order the identifier walks visit the same nodes and return
    the same result. *)
Theorem id_walk_ignores_order_of_unique_collection {iobj V D : Type}
    (nodes : gmap ref iobj) (nodeList nodeList' : list ref)
    (linkId idName : iobj → idval)
    (callback : ref → option V → option D → option V) (data : option D)
    (imergeProperty : iobj → option V)
    (mergeFunction : option V → option V → option V) (istartNode : ref) :
  listed nodes nodeList = true → is_Some (nodes !! istartNode) →
  unique_ids nodes idName nodeList = true →
  nodeList ≡ₚ nodeList' →
  (∃ v p tr tr',
     IdCallSync.walkChainIdCallSync nodes nodeList linkId idName callback data
       istartNode = Returned (v, State p tr) ∧
     IdCallSync.walkChainIdCallSync nodes nodeList' linkId idName callback data
       istartNode = Returned (v, State p tr') ∧
     omap invoked_on tr = omap invoked_on tr') ∧
  (∃ v p tr tr',
     IdMerge.walkChainIdMerge nodes nodeList linkId idName imergeProperty
       mergeFunction istartNode = Returned (v, State p tr) ∧
     IdMerge.walkChainIdMerge nodes nodeList' linkId idName imergeProperty
       mergeFunction istartNode = Returned (v, State p tr') ∧
     List.filter is_merge tr = List.filter is_merge tr').
Proof.
  intros Hlisted Histart Hu Hp.
  assert (Hlisted' : listed nodes nodeList' = true).
  { unfold listed in *. rewrite forallb_forall in *. intros x Hx.
    apply Hlisted. apply list_elem_of_In. rewrite Hp. by apply list_elem_of_In. }
  assert (Hnext : ∀ node, next_id nodes nodeList linkId idName node
                          = next_id nodes nodeList' linkId idName node).
  { intros node. unfold next_id. destruct (nodes !! node) as [o|]; [|done].
    simpl. destruct (is_undefined (linkId o)); [done|].
    by apply first_match_permutation. }
  destruct (walk_id_total nodes nodeList linkId idName istartNode Histart)
    as (p & Hw & _).
  assert (Hw' := Hw). rewrite (walk_ext _ _ Hnext) in Hw'.
  split.
  - eexists _, p, _, _. unfold IdCallSync.walkChainIdCallSync.
    rewrite !IdCallSync_recursion_walk by done. simpl visitedNodes.
    rewrite Hw, Hw'. split_and!; [reflexivity|reflexivity|].
    simpl. by rewrite !calls_invoked_on by apply search_not_invoked.
  - eexists _, p, _, _. unfold IdMerge.walkChainIdMerge.
    rewrite !IdMerge_recursion_walk by done. simpl visitedNodes.
    rewrite Hw, Hw'. split_and!; [reflexivity|reflexivity|].
    simpl. clear Hw Hw'. induction p as [|a q IH]; [done|].
    rewrite !merges_cons, !List.filter_app, IH.
    by rewrite !(filter_none is_merge (search _ _ _ _ a))
      by apply search_no_merge.
Qed.

Lemma id_walk_ignores_order_of_unique_collection_witness :
  listed anonymous [0; 1; 3] = true ∧ is_Some (anonymous !! 3) ∧
  unique_ids anonymous i_id [0; 1; 3] = true ∧ [0; 1; 3] ≡ₚ [3; 1; 0] ∧
  ∃ v p tr tr',
    IdCallSync.walkChainIdCallSync anonymous [0; 1; 3] i_parent i_id count
      None 3 = Returned (v, State p tr) ∧
    IdCallSync.walkChainIdCallSync anonymous [3; 1; 0] i_parent i_id count
      None 3 = Returned (v, State p tr') ∧
    omap invoked_on tr = omap invoked_on tr'.
Proof.
  assert (H1 : listed anonymous [0; 1; 3] = true) by (vm_compute; reflexivity).
  assert (H2 : is_Some (anonymous !! 3)) by (vm_compute; eauto).
  assert (H3 : unique_ids anonymous i_id [0; 1; 3] = true)
    by (vm_compute; reflexivity).
  assert (H4 : [0; 1; 3] ≡ₚ [3; 1; 0]) by exact (Permutation_rev [0; 1; 3]).
  split_and!; [exact H1|exact H2|exact H3|exact H4|].
  exact (proj1 (id_walk_ignores_order_of_unique_collection anonymous
                  [0; 1; 3] [3; 1; 0] i_parent i_id count None i_config sum 3
                  H1 H2 H3 H4)).
Defined.

(** * The earlier version against the current one *)

Lemma chain_loops next startNode p n m :
  chain next startNode p → last p = Some n → next n = Some m →
  ∀ r, r ∈ p → ∃ r', next r = Some r' ∧ r' ∈ p.
Proof.
  intros Hc Hlast Hn r Hr.
  assert (Hl : linked next p) by (by destruct Hc).
  apply list_elem_of_split in Hr as (l1 & l2 & ->).
  destruct l2 as [|c l2].
  - rewrite last_snoc in Hlast. injection Hlast as <-.
    exists m. split; [done|].
    eapply (chain_closed_next _ _ _ r); [exact Hc| |exact Hn].
    apply elem_of_app. right. left.
  - exists c. split; [by eapply linked_app_next|].
    apply elem_of_app. right. right. left.
Qed.

Lemma merged_all_cons {V} (mergeFunction : option V → option V → option V)
    localProperty x rest :
  merged_all mergeFunction (localProperty :: x :: rest) =
  mergeFunction (merged_all mergeFunction (x :: rest)) localProperty.
Proof. reflexivity. Qed.

Lemma merged_all_merged {V} (mergeFunction : option V → option V → option V)
    (q : list (option V)) x :
  Forall is_Some q →
  merged_all mergeFunction (q ++ [x]) = merged mergeFunction (q ++ [x]).
Proof.
  induction 1 as [|a q [v ->] Hq IH]; [done|].
  change ((Some v :: q) ++ [x]) with (Some v :: (q ++ [x])).
  destruct (q ++ [x]) as [|b r] eqn:Hqx; [by destruct q|].
  by rewrite merged_all_cons, merged_cons, IH.
Qed.

Section EarlierDirect.
Context {obj V : Type}.
Variable heap : gmap ref obj.
Variable linkName : obj → option ref.
Hypothesis Hclosed : closed heap linkName = true.

Lemma Earlier_Call_along {D} (callback : ref → option V → option V)
    (data : option D) p : ∀ node lastValue fuel,
  is_Some (heap !! node) →
  linked (next_direct heap linkName) (node :: p) →
  (∀ n, last (node :: p) = Some n → next_direct heap linkName n = None) →
  length (node :: p) ≤ fuel →
  Earlier.Call.recursion heap linkName callback fuel node lastValue
  = Returned (thread (λ n l _, callback n l) data (node :: p) lastValue).
Proof.
  induction p as [|b q IH]; intros node lastValue fuel [o Ho] Hl Hend Hfuel;
    (destruct fuel as [|fuel]; [simpl in Hfuel; lia|]); simpl; rewrite Ho.
  - specialize (Hend node eq_refl). unfold next_direct in Hend.
    rewrite Ho in Hend. simpl in Hend. by rewrite Hend.
  - destruct Hl as [Hn Hl].
    assert (Hb : is_Some (heap !! b)) by (by eapply closed_next).
    unfold next_direct in Hn. rewrite Ho in Hn. simpl in Hn. rewrite Hn.
    rewrite (IH b); [done|done|done| |simpl in *; lia].
    intros n Hlast. apply Hend. by rewrite last_cons, Hlast.
Qed.

Lemma Earlier_Merge_along (mergeProperty : obj → option V) mergeFunction p :
  ∀ node fuel,
  is_Some (heap !! node) →
  linked (next_direct heap linkName) (node :: p) →
  (∀ n, last (node :: p) = Some n → next_direct heap linkName n = None) →
  length (node :: p) ≤ fuel →
  Earlier.Merge.recursion heap linkName mergeProperty mergeFunction fuel node
  = Returned (merged_all mergeFunction
                (prop_of heap mergeProperty <$> node :: p)).
Proof.
  induction p as [|b q IH]; intros node fuel [o Ho] Hl Hend Hfuel;
    (destruct fuel as [|fuel]; [simpl in Hfuel; lia|]); simpl; rewrite Ho.
  - specialize (Hend node eq_refl). unfold next_direct in Hend.
    rewrite Ho in Hend. simpl in Hend. rewrite Hend.
    unfold prop_of. by rewrite Ho.
  - destruct Hl as [Hn Hl].
    assert (Hb : is_Some (heap !! b)) by (by eapply closed_next).
    unfold next_direct in Hn. rewrite Ho in Hn. simpl in Hn. rewrite Hn.
    rewrite (IH b); [|done|done| |simpl in *; lia].
    + assert (prop_of heap mergeProperty node = mergeProperty o) as ->
        by (unfold prop_of; by rewrite Ho).
      done.
    + intros n Hlast. apply Hend. by rewrite last_cons, Hlast.
Qed.

Lemma Earlier_Call_loops (callback : ref → option V → option V) (p : list ref) :
  (∀ r, r ∈ p → ∃ r', next_direct heap linkName r = Some r' ∧ r' ∈ p) →
  ∀ fuel node lastValue, node ∈ p →
  Earlier.Call.recursion heap linkName callback fuel node lastValue = OutOfFuel.
Proof.
  intros Hp fuel. induction fuel as [|fuel IH]; intros node lastValue Hnode;
    simpl; [done|].
  destruct (Hp node Hnode) as (r' & Hn & Hr').
  unfold next_direct in Hn. destruct (heap !! node) as [o|]; [|done].
  simpl in Hn. rewrite Hn. by apply IH.
Qed.

Lemma Earlier_Merge_loops (mergeProperty : obj → option V) mergeFunction
    (p : list ref) :
  (∀ r, r ∈ p → ∃ r', next_direct heap linkName r = Some r' ∧ r' ∈ p) →
  ∀ fuel node, node ∈ p →
  Earlier.Merge.recursion heap linkName mergeProperty mergeFunction fuel node
  = OutOfFuel.
Proof.
  intros Hp fuel. induction fuel as [|fuel IH]; intros node Hnode;
    simpl; [done|].
  destruct (Hp node Hnode) as (r' & Hn & Hr').
  unfold next_direct in Hn. destruct (heap !! node) as [o|]; [|done].
  simpl in Hn. rewrite Hn. by rewrite IH.
Qed.
End EarlierDirect.

(** X8: on a chain that ends in a dead end, the earlier [walkChainCall],
    which keeps no list of visited nodes, returns what [walkChainCallSync]
    returns for the same callback, once the recursion is allowed to go as
    deep as the chain is long. *)
Theorem earlier_call_agrees_on_chains_without_cycle {obj V D : Type}
    (heap : gmap ref obj) (linkName : obj → option ref)
    (callback : ref → option V → option V) (data : option D)
    (startNode : ref) :
  closed heap linkName = true → is_Some (heap !! startNode) →
  ∃ v s node,
    CallSync.walkChainCallSync heap linkName (λ n l _, callback n l) data
      startNode = Returned (v, s) ∧
    last (visitedNodes s) = Some node ∧
    (next_direct heap linkName node = None →
     ∀ fuel, length (visitedNodes s) ≤ fuel →
       Earlier.Call.walkChainCall heap linkName callback fuel startNode
       = Returned v).
Proof.
  intros Hclosed Hstart.
  destruct (CallSync_returns heap startNode Hstart linkName Hclosed
              (λ n l _, callback n l) data) as (p & Hc & Hr).
  destruct Hc as [Hh _ Hl (n & Hlast & _)].
  destruct p as [|a q]; [done|]. injection Hh as ->.
  eexists _, _, n. split; [exact Hr|]. cbn [visitedNodes].
  split; [done|]. intros Hend fuel Hfuel.
  unfold Earlier.Call.walkChainCall.
  apply Earlier_Call_along; [done|done|done| |done].
  intros n' Hn'. rewrite Hlast in Hn'. by injection Hn' as <-.
Qed.

Lemma earlier_call_agrees_on_chains_without_cycle_witness :
  closed abc d_parent = true ∧ is_Some (abc !! 0) ∧
  ∃ v s node,
    CallSync.walkChainCallSync abc d_parent
      (λ n l _, concat_ids abc n l None) (@None unit) 0 = Returned (v, s) ∧
    last (visitedNodes s) = Some node ∧
    (next_direct abc d_parent node = None →
     ∀ fuel, length (visitedNodes s) ≤ fuel →
       Earlier.Call.walkChainCall abc d_parent
         (λ n l, concat_ids abc n l None) fuel 0 = Returned v).
Proof.
  assert (H1 : closed abc d_parent = true) by (vm_compute; reflexivity).
  assert (H2 : is_Some (abc !! 0)) by (vm_compute; eauto).
  split_and!; [exact H1|exact H2|].
  exact (earlier_call_agrees_on_chains_without_cycle abc d_parent
           (λ n l, concat_ids abc n l None) None 0 H1 H2).
Defined.

(** X9: on a chain with a cycle, where the current walks stop at the
    repeat, the earlier [walkChainCall] and [walkChainMerge] do not return:
    whatever depth the recursion is allowed, it is used up. *)
Theorem earlier_walks_do_not_return_on_a_cycle {obj V D : Type}
    (heap : gmap ref obj) (linkName : obj → option ref)
    (callback : ref → option V → option V) (data : option D)
    (mergeProperty : obj → option V)
    (mergeFunction : option V → option V → option V)
    (startNode : ref) :
  closed heap linkName = true → is_Some (heap !! startNode) →
  ∃ v s node,
    CallSync.walkChainCallSync heap linkName (λ n l _, callback n l) data
      startNode = Returned (v, s) ∧
    last (visitedNodes s) = Some node ∧
    (next_direct heap linkName node ≠ None →
     ∀ fuel,
       Earlier.Call.walkChainCall heap linkName callback fuel startNode
       = OutOfFuel ∧
       Earlier.Merge.walkChainMerge heap linkName mergeProperty mergeFunction
         fuel startNode = OutOfFuel).
Proof.
  intros Hclosed Hstart.
  destruct (CallSync_returns heap startNode Hstart linkName Hclosed
              (λ n l _, callback n l) data) as (p & Hc & Hr).
  assert (Hc' := Hc). destruct Hc' as [Hh _ _ (n & Hlast & _)].
  eexists _, _, n. split; [exact Hr|]. cbn [visitedNodes].
  split; [done|]. intros Hend fuel.
  destruct (next_direct heap linkName n) as [m|] eqn:Hn; [|done].
  pose proof (chain_loops _ _ _ _ _ Hc Hlast Hn) as Hloop.
  assert (Hs : startNode ∈ p).
  { destruct p as [|a q]; [done|]. injection Hh as ->. left. }
  split.
  - by eapply Earlier_Call_loops.
  - by eapply Earlier_Merge_loops.
Qed.

Lemma earlier_walks_do_not_return_on_a_cycle_witness :
  closed cycle d_parent = true ∧ is_Some (cycle !! 0) ∧
  ∀ fuel,
    Earlier.Call.walkChainCall cycle d_parent (λ n l, count n l None) fuel 0
    = OutOfFuel ∧
    Earlier.Merge.walkChainMerge cycle d_parent d_config sum fuel 0 = OutOfFuel.
Proof.
  assert (H1 : closed cycle d_parent = true) by (vm_compute; reflexivity).
  assert (H2 : is_Some (cycle !! 0)) by (vm_compute; eauto).
  split_and!; [exact H1|exact H2|].
  destruct (earlier_walks_do_not_return_on_a_cycle cycle d_parent
              (λ n l, count n l None) (@None unit) d_config sum 0 H1 H2)
    as (v & s & node & Hr & Hlast & Hloop).
  apply Hloop.
  vm_compute in Hr. injection Hr as <- <-.
  simpl in Hlast. injection Hlast as <-. by vm_compute.
Defined.

(** X10: the earlier [walkChainMerge] calls the merge function at every
    node that has a next node, also when the node's local property value is
    [undefined]: on a chain that ends in a dead end it returns the values of
    all nodes merged, none left out. It agrees with the current
    [walkChainMerge] when every node but the last has a value. *)
Theorem earlier_merge_leaves_no_value_out {obj V : Type}
    (heap : gmap ref obj) (linkName : obj → option ref)
    (mergeProperty : obj → option V)
    (mergeFunction : option V → option V → option V)
    (startNode : ref) :
  closed heap linkName = true → is_Some (heap !! startNode) →
  ∃ v s q node,
    Merge.walkChainMerge heap linkName mergeProperty mergeFunction startNode
      = Returned (v, s) ∧
    visitedNodes s = q ++ [node] ∧
    (next_direct heap linkName node = None →
     ∀ fuel, length (visitedNodes s) ≤ fuel →
       Earlier.Merge.walkChainMerge heap linkName mergeProperty mergeFunction
         fuel startNode
       = Returned (merged_all mergeFunction
                     (prop_of heap mergeProperty <$> visitedNodes s)) ∧
       ((∀ n, n ∈ q → is_Some (prop_of heap mergeProperty n)) →
        Earlier.Merge.walkChainMerge heap linkName mergeProperty mergeFunction
          fuel startNode = Returned v)).
Proof.
  intros Hclosed Hstart.
  destruct (Merge_returns heap startNode Hstart linkName Hclosed
              mergeProperty mergeFunction) as (p & Hc & Hr).
  destruct Hc as [Hh _ Hl (n & Hlast & _)].
  assert (Hlast' := Hlast). apply last_Some in Hlast' as [q Hq].
  eexists _, _, q, n. split; [exact Hr|]. cbn [visitedNodes].
  split; [done|]. intros Hend fuel Hfuel.
  assert (He : Earlier.Merge.walkChainMerge heap linkName mergeProperty
                 mergeFunction fuel startNode
               = Returned (merged_all mergeFunction
                             (prop_of heap mergeProperty <$> p))).
  { destruct p as [|a r]; [done|]. injection Hh as ->.
    unfold Earlier.Merge.walkChainMerge.
    apply Earlier_Merge_along; [done|done|done| |done].
    intros n' Hn'. rewrite Hlast in Hn'. by injection Hn' as <-. }
  split; [done|]. intros Hall. rewrite He. f_equal.
  rewrite Hq, fmap_app. apply merged_all_merged.
  apply Forall_fmap, Forall_forall. intros x Hx. by apply Hall.
Qed.

Lemma earlier_merge_leaves_no_value_out_witness :
  closed abc_skip d_parent = true ∧ is_Some (abc_skip !! 0) ∧
  ∃ v s q node,
    Merge.walkChainMerge abc_skip d_parent d_config shallowMerge 0
      = Returned (v, s) ∧
    visitedNodes s = q ++ [node] ∧
    (next_direct abc_skip d_parent node = None →
     ∀ fuel, length (visitedNodes s) ≤ fuel →
       Earlier.Merge.walkChainMerge abc_skip d_parent d_config shallowMerge
         fuel 0
       = Returned (merged_all shallowMerge
                     (prop_of abc_skip d_config <$> visitedNodes s)) ∧
       ((∀ n, n ∈ q → is_Some (prop_of abc_skip d_config n)) →
        Earlier.Merge.walkChainMerge abc_skip d_parent d_config shallowMerge
          fuel 0 = Returned v)).
Proof.
  assert (H1 : closed abc_skip d_parent = true) by (vm_compute; reflexivity).
  assert (H2 : is_Some (abc_skip !! 0)) by (vm_compute; eauto).
  split_and!; [exact H1|exact H2|].
  exact (earlier_merge_leaves_no_value_out abc_skip d_parent d_config
           shallowMerge 0 H1 H2).
Defined.

Lemma linked_ext next next' p :
  (∀ n, n ∈ p → next n = next' n) → linked next p → linked next' p.
Proof.
  induction p as [|a q IH]; intros Hext Hl; [done|].
  destruct Hl as [Ha Hl]. split.
  - destruct q; [done|]. rewrite <- Hext by left. done.
  - apply IH; [|done]. intros n Hn. apply Hext. by right.
Qed.

Section EarlierId.
Context {iobj V : Type}.
Variable nodes : gmap ref iobj.
Variable nodeList : list ref.
Variable linkId idName : iobj → idval.
Hypothesis Hlisted : listed nodes nodeList = true.

Lemma find_from_init linkValue :
  find (V:=V) nodes idName linkValue nodeList init =
  Returned (first_match nodes idName linkValue nodeList,
            State [] (compares nodes idName linkValue nodeList)).
Proof. by rewrite find_first_match by exact Hlisted. Qed.

Lemma next_id_earlier_heap a b :
  next_id_earlier nodes nodeList linkId idName a = Some b →
  is_Some (nodes !! b).
Proof.
  unfold next_id_earlier. destruct (nodes !! a) as [o|]; simpl; [|done].
  destruct (loose_eq (linkId o) IdUndefined); [done|].
  intros H%first_match_heap. tauto.
Qed.

Lemma next_id_earlier_eq node :
  (∀ o, nodes !! node = Some o → linkId o ≠ IdNull) →
  next_id_earlier nodes nodeList linkId idName node
  = next_id nodes nodeList linkId idName node.
Proof.
  intros Hnull. unfold next_id_earlier, next_id.
  destruct (nodes !! node) as [o|]; [|done]. simpl.
  specialize (Hnull o eq_refl). by destruct (linkId o).
Qed.


Lemma Earlier_IdMerge_along (imergeProperty : iobj → option V) mergeFunction
    p : ∀ node fuel,
  is_Some (nodes !! node) →
  linked (next_id_earlier nodes nodeList linkId idName) (node :: p) →
  (∀ n, last (node :: p) = Some n →
        next_id_earlier nodes nodeList linkId idName n = None) →
  length (node :: p) ≤ fuel →
  Earlier.IdMerge.recursion nodes nodeList linkId idName imergeProperty
    mergeFunction fuel node
  = Returned (merged_all mergeFunction
                (prop_of nodes imergeProperty <$> node :: p)).
Proof.
  induction p as [|b q IH]; intros node fuel [o Ho] Hl Hend Hfuel;
    (destruct fuel as [|fuel]; [simpl in Hfuel; lia|]); simpl; rewrite Ho;
    (assert (prop_of nodes imergeProperty node = imergeProperty o) as ->
       by (unfold prop_of; by rewrite Ho)).
  - specialize (Hend node eq_refl). unfold next_id_earlier in Hend.
    rewrite Ho in Hend. simpl in Hend.
    destruct (loose_eq (linkId o) IdUndefined); [done|].
    by rewrite find_from_init, Hend.
  - destruct Hl as [Hn Hl].
    assert (Hb : is_Some (nodes !! b)) by (by eapply next_id_earlier_heap).
    unfold next_id_earlier in Hn. rewrite Ho in Hn. simpl in Hn.
    destruct (loose_eq (linkId o) IdUndefined); [done|].
    rewrite find_from_init, Hn.
    rewrite (IH b); [done|done|done| |simpl in *; lia].
    intros n Hlast. apply Hend. by rewrite last_cons, Hlast.
Qed.

Lemma Earlier_Id_loops (callback : ref → option V → option V)
    (imergeProperty : iobj → option V) mergeFunction (p : list ref) :
  (∀ r, r ∈ p → ∃ r', next_id_earlier nodes nodeList linkId idName r = Some r'
                      ∧ r' ∈ p) →
  ∀ fuel node, node ∈ p →
  (∀ lastValue,
     Earlier.IdCall.recursion nodes nodeList linkId idName callback
       fuel node lastValue = OutOfFuel) ∧
  Earlier.IdMerge.recursion nodes nodeList linkId idName imergeProperty
    mergeFunction fuel node = OutOfFuel.
Proof.
  intros Hp fuel. induction fuel as [|fuel IH]; intros node Hnode;
    simpl; [done|].
  destruct (Hp node Hnode) as (r' & Hn & Hr').
  unfold next_id_earlier in Hn. destruct (nodes !! node) as [o|]; [|done].
  simpl in Hn. destruct (loose_eq (linkId o) IdUndefined); [done|].
  rewrite find_from_init, Hn. destruct (IH r' Hr') as [IHc IHm].
  split; [intros lastValue; apply IHc|by rewrite IHm].
Qed.
End EarlierId.



(** X12: the earlier [walkChainIdMerge], on a chain that ends in a dead end
    and has no link of [null], returns the local property values of all
    nodes merged, those of [undefined] included; it agrees with the current
    [walkChainIdMerge] when every node but the last has a value. A link of
    [null] ends its walk at once with the node's own value. *)
Theorem earlier_id_merge_leaves_no_value_out {iobj V : Type}
    (nodes : gmap ref iobj) (nodeList : list ref) (linkId idName : iobj → idval)
    (imergeProperty : iobj → option V)
    (mergeFunction : option V → option V → option V)
    (istartNode : ref) :
  listed nodes nodeList = true → is_Some (nodes !! istartNode) →
  (∃ v s q node,
     IdMerge.walkChainIdMerge nodes nodeList linkId idName imergeProperty
       mergeFunction istartNode = Returned (v, s) ∧
     visitedNodes s = q ++ [node] ∧
     (next_id nodes nodeList linkId idName node = None →
      (∀ n o, n ∈ visitedNodes s → nodes !! n = Some o → linkId o ≠ IdNull) →
      ∀ fuel, length (visitedNodes s) ≤ fuel →
        Earlier.IdMerge.walkChainIdMerge nodes nodeList linkId idName
          imergeProperty mergeFunction fuel istartNode
        = Returned (merged_all mergeFunction
                      (prop_of nodes imergeProperty <$> visitedNodes s)) ∧
        ((∀ n, n ∈ q → is_Some (prop_of nodes imergeProperty n)) →
         Earlier.IdMerge.walkChainIdMerge nodes nodeList linkId idName
           imergeProperty mergeFunction fuel istartNode = Returned v))) ∧
  (∀ o fuel,
     nodes !! istartNode = Some o → linkId o = IdNull →
     Earlier.IdMerge.walkChainIdMerge nodes nodeList linkId idName
       imergeProperty mergeFunction (S fuel) istartNode
     = Returned (imergeProperty o)).
Proof.
  intros Hlisted Histart. split.
  - destruct (IdMerge_returns nodes istartNode Histart nodeList linkId idName
                Hlisted imergeProperty mergeFunction) as (p & Hc & Hr).
    destruct Hc as [Hh _ Hl (n & Hlast & _)].
    assert (Hlast' := Hlast). apply last_Some in Hlast' as [q Hq].
    eexists _, _, q, n. split; [exact Hr|]. cbn [visitedNodes].
    split; [done|]. intros Hend Hnull fuel Hfuel.
    assert (Hext : ∀ x, x ∈ p →
              next_id nodes nodeList linkId idName x
              = next_id_earlier nodes nodeList linkId idName x).
    { intros x Hx. symmetry. apply next_id_earlier_eq. intros o. by apply Hnull. }
    assert (He : Earlier.IdMerge.walkChainIdMerge nodes nodeList linkId idName
                   imergeProperty mergeFunction fuel istartNode
                 = Returned (merged_all mergeFunction
                               (prop_of nodes imergeProperty <$> p))).
    { destruct p as [|a r]; [done|]. injection Hh as ->.
      unfold Earlier.IdMerge.walkChainIdMerge.
      apply Earlier_IdMerge_along; [done|done| | |done].
      - by eapply linked_ext.
      - intros n' Hn'. rewrite Hlast in Hn'. injection Hn' as <-.
        rewrite <- Hext; [done|]. by apply last_Some_elem_of. }
    split; [done|]. intros Hall. rewrite He. f_equal.
    rewrite Hq, fmap_app. apply merged_all_merged.
    apply Forall_fmap, Forall_forall. intros x Hx. by apply Hall.
  - intros o fuel Ho Hl. unfold Earlier.IdMerge.walkChainIdMerge. simpl.
    by rewrite Ho, Hl.
Qed.

Lemma earlier_id_merge_leaves_no_value_out_witness :
  listed tail_absent_id [0; 1; 2] = true ∧ is_Some (tail_absent_id !! 0) ∧
  IdMerge.walkChainIdMerge tail_absent_id [0; 1; 2] i_parent i_id i_config
    sum 0
  = Returned (Some 3,
              State [0; 1; 2]
                [Compare 0 (IdString "b"); Compare 1 (IdString "b");
                 Compare 0 (IdString "c"); Compare 1 (IdString "c");
                 Compare 2 (IdString "c");
                 Merge None (Some 2); Merge (Some 2) (Some 1)]) ∧
  (∀ fuel, 3 ≤ fuel →
    Earlier.IdMerge.walkChainIdMerge tail_absent_id [0; 1; 2] i_parent i_id
      i_config sum fuel 0
    = Returned (merged_all sum [Some 1; Some 2; None]) ∧
    Earlier.IdMerge.walkChainIdMerge tail_absent_id [0; 1; 2] i_parent i_id
      i_config sum fuel 0
    = Returned (Some 3)) ∧
  (listed anonymous [0; 1; 2; 3] = true ∧ is_Some (anonymous !! 3) ∧
   anonymous !! 3 = Some (INode (IdString "t") IdNull (Some 4)) ∧
   Earlier.IdMerge.walkChainIdMerge anonymous [0; 1; 2; 3] i_parent i_id
     i_config sum 1 3 = Returned (Some 4)).
Proof.
  assert (H3 : listed tail_absent_id [0; 1; 2] = true)
    by (vm_compute; reflexivity).
  assert (H4 : is_Some (tail_absent_id !! 0)) by (vm_compute; eauto).
  assert (H5 : listed anonymous [0; 1; 2; 3] = true)
    by (vm_compute; reflexivity).
  assert (H6 : is_Some (anonymous !! 3)) by (vm_compute; eauto).
  assert (H7 : anonymous !! 3 = Some (INode (IdString "t") IdNull (Some 4)))
    by (vm_compute; reflexivity).
  split_and!; [exact H3|exact H4|by vm_compute| |exact H5|exact H6|exact H7|
    exact (proj2 (earlier_id_merge_leaves_no_value_out anonymous [0; 1; 2; 3]
                    i_parent i_id i_config sum 3 H5 H6) _ 0 H7 eq_refl)].
  destruct (proj1 (earlier_id_merge_leaves_no_value_out tail_absent_id
              [0; 1; 2] i_parent i_id i_config sum 0 H3 H4))
    as (v & s & q & node & Hr & Hq & Hagree).
  vm_compute in Hr. injection Hr as <- <-. cbn [visitedNodes] in Hq, Hagree.
  apply (app_inj_tail [0; 1] q 2 node) in Hq as [<- <-].
  intros fuel Hfuel.
  destruct (Hagree eq_refl) with (fuel := fuel) as [Hall Hsame].
  - intros n o Hn Ho.
    apply elem_of_cons in Hn as [->|Hn];
      [vm_compute in Ho; injection Ho as <-; by simpl|].
    apply elem_of_cons in Hn as [->|Hn];
      [vm_compute in Ho; injection Ho as <-; by simpl|].
    apply list_elem_of_singleton in Hn as ->.
    vm_compute in Ho. injection Ho as <-. by simpl.
  - simpl. lia.
  - split; [exact Hall|]. apply Hsame.
    intros n Hn.
    apply elem_of_cons in Hn as [->|Hn]; [by vm_compute; eauto|].
    apply list_elem_of_singleton in Hn as ->. by vm_compute; eauto.
Defined.

(** X13: on a chain of identified nodes with a cycle and no link of [null],
    where the current walks stop at the repeat, the earlier
    [walkChainIdCall] and [walkChainIdMerge] do not return: whatever depth
    the recursion is allowed, it is used up. *)
Theorem earlier_id_walks_do_not_return_on_a_cycle {iobj V D : Type}
    (nodes : gmap ref iobj) (nodeList : list ref) (linkId idName : iobj → idval)
    (callback : ref → option V → option V) (data : option D)
    (imergeProperty : iobj → option V)
    (mergeFunction : option V → option V → option V)
    (istartNode : ref) :
  listed nodes nodeList = true → is_Some (nodes !! istartNode) →
  ∃ v s node,
    IdCallSync.walkChainIdCallSync nodes nodeList linkId idName
      (λ n l _, callback n l) data istartNode = Returned (v, s) ∧
    last (visitedNodes s) = Some node ∧
    (next_id nodes nodeList linkId idName node ≠ None →
     (∀ n o, n ∈ visitedNodes s → nodes !! n = Some o → linkId o ≠ IdNull) →
     ∀ fuel,
       Earlier.IdCall.walkChainIdCall nodes nodeList linkId idName callback
         fuel istartNode = OutOfFuel ∧
       Earlier.IdMerge.walkChainIdMerge nodes nodeList linkId idName
         imergeProperty mergeFunction fuel istartNode = OutOfFuel).
Proof.
  intros Hlisted Histart.
  destruct (IdCallSync_returns nodes istartNode Histart nodeList linkId
              idName Hlisted (λ n l _, callback n l) data) as (p & Hc & Hr).
  assert (Hc' := Hc). destruct Hc' as [Hh _ _ (n & Hlast & _)].
  eexists _, _, n. split; [exact Hr|]. cbn [visitedNodes].
  split; [done|]. intros Hend Hnull fuel.
  destruct (next_id nodes nodeList linkId idName n) as [m|] eqn:Hn; [|done].
  pose proof (chain_loops _ _ _ _ _ Hc Hlast Hn) as Hloop.
  assert (Hs : istartNode ∈ p).
  { destruct p as [|a q]; [done|]. injection Hh as ->. left. }
  assert (Hloop' : ∀ r, r ∈ p →
            ∃ r', next_id_earlier nodes nodeList linkId idName r = Some r'
                  ∧ r' ∈ p).
  { intros r Hin. destruct (Hloop r Hin) as (r' & Hnr & Hin'). exists r'.
    split; [|done]. rewrite next_id_earlier_eq; [done|].
    intros o. by apply Hnull. }
  destruct (Earlier_Id_loops nodes nodeList linkId idName Hlisted callback
              imergeProperty mergeFunction p Hloop' fuel istartNode Hs)
    as [Hcall Hmerge].
  split; [apply Hcall|apply Hmerge].
Qed.

Lemma earlier_id_walks_do_not_return_on_a_cycle_witness :
  listed id_cycle [0; 1] = true ∧ is_Some (id_cycle !! 0) ∧
  ∀ fuel,
    Earlier.IdCall.walkChainIdCall id_cycle [0; 1] i_parent i_id
      (λ n l, count n l None) fuel 0 = OutOfFuel ∧
    Earlier.IdMerge.walkChainIdMerge id_cycle [0; 1] i_parent i_id i_config
      sum fuel 0 = OutOfFuel.
Proof.
  assert (H3 : listed id_cycle [0; 1] = true) by (vm_compute; reflexivity).
  assert (H4 : is_Some (id_cycle !! 0)) by (vm_compute; eauto).
  split_and!; [exact H3|exact H4|].
  destruct (earlier_id_walks_do_not_return_on_a_cycle id_cycle [0; 1]
              i_parent i_id (λ n l, count n l None) (@None unit) i_config sum
              0 H3 H4)
    as (v & s & node & Hr & Hlast & Hloop).
  vm_compute in Hr. injection Hr as <- <-.
  simpl in Hlast. injection Hlast as <-.
  apply Hloop; [by vm_compute|].
  intros n o Hn Ho.
  apply elem_of_cons in Hn as [->|Hn].
  - vm_compute in Ho. injection Ho as <-. by simpl.
  - apply list_elem_of_singleton in Hn as ->.
    vm_compute in Ho. injection Ho as <-. by simpl.
Defined.

(** X14: an identifier walk visits at most one node more than the
    collection has elements: the start node and then collection nodes, none
    of them twice. So the callback is invoked at most
    [nodeList.length + 1] times. *)
Theorem id_walk_is_no_longer_than_the_collection {iobj V D : Type}
    (nodes : gmap ref iobj) (nodeList : list ref) (linkId idName : iobj → idval)
    (callback : ref → option V → option D → option V) (data : option D)
    (imergeProperty : iobj → option V)
    (mergeFunction : option V → option V → option V) (istartNode : ref) :
  listed nodes nodeList = true → is_Some (nodes !! istartNode) →
  (∃ v s,
     IdCallSync.walkChainIdCallSync nodes nodeList linkId idName callback data
       istartNode = Returned (v, s) ∧
     length (visitedNodes s) ≤ S (length nodeList) ∧
     length (omap invoked_on (trace s)) ≤ S (length nodeList)) ∧
  (∃ v s,
     IdMerge.walkChainIdMerge nodes nodeList linkId idName imergeProperty
       mergeFunction istartNode = Returned (v, s) ∧
     length (visitedNodes s) ≤ S (length nodeList)).
Proof.
  intros Hlisted Histart.
  assert (Hbound : ∀ p,
            chain (next_id nodes nodeList linkId idName) istartNode p →
            length p ≤ S (length nodeList)).
  { intros p [Hh Hnd Hl _]. destruct p as [|a q]; [simpl; lia|].
    injection Hh as ->. apply NoDup_cons in Hnd as [_ Hnd]. simpl.
    apply le_n_S, submseteq_length, NoDup_submseteq; [done|].
    by eapply linked_first_match. }
  split.
  - destruct (IdCallSync_returns nodes istartNode Histart nodeList linkId
                idName Hlisted callback data) as (p & Hc & Hr).
    eexists _, _. split; [exact Hr|]. cbn [visitedNodes trace].
    rewrite calls_invoked_on by apply search_not_invoked. auto.
  - destruct (IdMerge_returns nodes istartNode Histart nodeList linkId
                idName Hlisted imergeProperty mergeFunction) as (p & Hc & Hr).
    eexists _, _. split; [exact Hr|]. cbn [visitedNodes]. auto.
Qed.

Lemma id_walk_is_no_longer_than_the_collection_witness :
  listed id_cycle [0; 1] = true ∧ is_Some (id_cycle !! 0) ∧
  ∃ v s,
    IdMerge.walkChainIdMerge id_cycle [0; 1] i_parent i_id i_config sum 0
      = Returned (v, s) ∧
    length (visitedNodes s) ≤ S (length [0; 1]).
Proof.
  assert (H3 : listed id_cycle [0; 1] = true) by (vm_compute; reflexivity).
  assert (H4 : is_Some (id_cycle !! 0)) by (vm_compute; eauto).
  split_and!; [exact H3|exact H4|].
  exact (proj2 (id_walk_is_no_longer_than_the_collection id_cycle [0; 1]
                  i_parent i_id count None i_config sum 0 H3 H4)).
Defined.
